(** * The message-update streaming pipeline of [src/lib/utils/messageUpdates.ts]

    A shallow embedding of the four stages of the module:
    - the chunk decoder ([parseMessageUpdates], [endpointStreamToIterator]),
    - the word coalescer ([streamMessageUpdatesToFullWords]),
    - the pacing scheduler ([smoothAsyncIterator]),
    - the transport checks at the head of [fetchMessageUpdates].

    JavaScript strings are sequences of UTF-16 code units; they are modelled
    as lists of [N].  [JSON.parse] is a built-in of the platform: it is
    modelled by a recursive-descent parser for the JSON grammar of ECMA-404,
    which is the grammar ECMA-262 prescribes for [JSON.parse]. *)

From Stdlib Require Import Ascii String.
From Stdlib Require Import List NArith ZArith Bool Lia.
From Stdlib Require Floats Uint63.
Import ListNotations.

#[local] Set Warnings "-register-all".
Local Open Scope N_scope.

(** ** JavaScript strings *)

Definition code_unit := N.
Definition jsstring := list code_unit.

(** An ASCII literal read as a JavaScript string. *)
Definition js (s : string) : jsstring :=
  map N_of_ascii (list_ascii_of_string s).
Arguments js s%_string.

Fixpoint jsstring_eqb (a b : jsstring) : bool :=
  match a, b with
  | [], [] => true
  | x :: a', y :: b' => (x =? y) && jsstring_eqb a' b'
  | _, _ => false
  end.

Definition NEWLINE : code_unit := 10.
Definition QUOTE : code_unit := 34.

(** An ASCII literal between double quotes. *)
Definition quoted (s : string) : jsstring := QUOTE :: js s ++ [QUOTE].
Arguments quoted s%_string.

(** [value.split("\n")]: the segments between newline code units; the empty
    string splits into one empty segment. *)
Fixpoint split_newline (s : jsstring) : list jsstring :=
  match s with
  | [] => [[]]
  | c :: r =>
      if c =? NEWLINE then [] :: split_newline r
      else match split_newline r with
           | h :: t => (c :: h) :: t
           | [] => [[c]]
           end
  end.


Definition newline_free (s : jsstring) : Prop := ~ In NEWLINE s.

(** Lines, each followed by its newline. *)
Definition terminated (lines : list jsstring) : jsstring :=
  flat_map (fun line => line ++ [NEWLINE]) lines.

(** ** JSON values and [JSON.parse] *)

Module JSON.

(** The value [JSON.parse] builds.  A number keeps the text of its literal
    (its IEEE value is not needed here); an object keeps its members in
    source order, and a later duplicate key shadows an earlier one. *)
Inductive t : Type :=
| JNull
| JBool (b : bool)
| JNumber (literal : jsstring)
| JString (s : jsstring)
| JArray (elements : list t)
| JObject (members : list (jsstring * t)).

Definition is_ws (c : code_unit) : bool :=
  (c =? 9) || (c =? 10) || (c =? 13) || (c =? 32).

Definition is_digit (c : code_unit) : bool := (48 <=? c) && (c <=? 57).

Definition hex_value (c : code_unit) : option N :=
  if is_digit c then Some (c - 48)
  else if (97 <=? c) && (c <=? 102) then Some (c - 87)
  else if (65 <=? c) && (c <=? 70) then Some (c - 55)
  else None.

Fixpoint skip_ws (s : jsstring) : jsstring :=
  match s with
  | c :: r => if is_ws c then skip_ws r else s
  | [] => []
  end.

(** [digits s] splits the longest prefix of decimal digits off [s]. *)
Fixpoint digits (s : jsstring) : jsstring * jsstring :=
  match s with
  | c :: r =>
      if is_digit c then let '(d, rest) := digits r in (c :: d, rest)
      else ([], s)
  | [] => ([], [])
  end.

(** int: [0] or a non-zero digit followed by digits. *)
Definition parse_int (s : jsstring) : option (jsstring * jsstring) :=
  match s with
  | c :: r =>
      if c =? 48 then Some ([c], r)
      else if is_digit c then let '(d, rest) := digits r in Some (c :: d, rest)
      else None
  | [] => None
  end.

(** frac: nothing, or [.] and at least one digit. *)
Definition parse_frac (s : jsstring) : option (jsstring * jsstring) :=
  match s with
  | 46 :: r =>
      match digits r with
      | ([], _) => None
      | (d, rest) => Some (46 :: d, rest)
      end
  | _ => Some ([], s)
  end.

(** exp: nothing, or [e]/[E], an optional sign and at least one digit. *)
Definition parse_exp (s : jsstring) : option (jsstring * jsstring) :=
  match s with
  | c :: r =>
      if (c =? 101) || (c =? 69) then
        let '(sign, r') :=
          match r with
          | sg :: r1 => if (sg =? 43) || (sg =? 45) then ([sg], r1) else ([], r)
          | [] => ([], r)
          end in
        match digits r' with
        | ([], _) => None
        | (d, rest) => Some (c :: sign ++ d, rest)
        end
      else Some ([], s)
  | [] => Some ([], s)
  end.

Definition parse_number (s : jsstring) : option (jsstring * jsstring) :=
  let '(minus, s1) :=
    match s with
    | 45 :: r => ([45], r)
    | _ => ([], s)
    end in
  match parse_int s1 with
  | None => None
  | Some (i, s2) =>
      match parse_frac s2 with
      | None => None
      | Some (f, s3) =>
          match parse_exp s3 with
          | None => None
          | Some (e, s4) => Some (minus ++ i ++ f ++ e, s4)
          end
      end
  end.

(** The characters of a string literal after its opening quote, up to and
    including the closing quote.  Control characters below U+0020 are
    refused; the escapes are those of the JSON grammar. *)
Fixpoint parse_chars (s : jsstring) : option (jsstring * jsstring) :=
  match s with
  | [] => None
  | 34 :: r => Some ([], r)
  | 92 :: e :: r =>
      let simple (c : code_unit) :=
        match parse_chars r with
        | Some (str, rest) => Some (c :: str, rest)
        | None => None
        end in
      if e =? 34 then simple 34
      else if e =? 92 then simple 92
      else if e =? 47 then simple 47
      else if e =? 98 then simple 8
      else if e =? 102 then simple 12
      else if e =? 110 then simple 10
      else if e =? 114 then simple 13
      else if e =? 116 then simple 9
      else if e =? 117 then
        match r with
        | h1 :: h2 :: h3 :: h4 :: r' =>
            match hex_value h1, hex_value h2, hex_value h3, hex_value h4 with
            | Some a, Some b, Some c, Some d =>
                match parse_chars r' with
                | Some (str, rest) =>
                    Some (((a * 16 + b) * 16 + c) * 16 + d :: str, rest)
                | None => None
                end
            | _, _, _, _ => None
            end
        | _ => None
        end
      else None
  | 92 :: [] => None
  | c :: r =>
      if c <? 32 then None
      else match parse_chars r with
           | Some (str, rest) => Some (c :: str, rest)
           | None => None
           end
  end.

Definition starts_with (p s : jsstring) : option jsstring :=
  if jsstring_eqb (firstn (List.length p) s) p then Some (skipn (List.length p) s)
  else None.

(** value, elements and members of the grammar.  [fuel] bounds the depth
    of the descent; [parse] below supplies more than any text can use. *)
Fixpoint parse_value (fuel : nat) (s : jsstring) {struct fuel}
  : option (t * jsstring) :=
  match fuel with
  | O => None
  | S fuel' =>
      match skip_ws s with
      | 123 :: r =>
          match skip_ws r with
          | 125 :: r' => Some (JObject [], r')
          | r1 => parse_members fuel' r1 []
          end
      | 91 :: r =>
          match skip_ws r with
          | 93 :: r' => Some (JArray [], r')
          | r1 => parse_elements fuel' r1 []
          end
      | 34 :: r =>
          match parse_chars r with
          | Some (str, rest) => Some (JString str, rest)
          | None => None
          end
      | 116 :: r =>
          match starts_with (js "rue") r with
          | Some rest => Some (JBool true, rest)
          | None => None
          end
      | 102 :: r =>
          match starts_with (js "alse") r with
          | Some rest => Some (JBool false, rest)
          | None => None
          end
      | 110 :: r =>
          match starts_with (js "ull") r with
          | Some rest => Some (JNull, rest)
          | None => None
          end
      | s' =>
          match parse_number s' with
          | Some (lit, rest) => Some (JNumber lit, rest)
          | None => None
          end
      end
  end

with parse_elements (fuel : nat) (s : jsstring) (acc : list t) {struct fuel}
  : option (t * jsstring) :=
  match fuel with
  | O => None
  | S fuel' =>
      match parse_value fuel' s with
      | None => None
      | Some (v, r) =>
          match skip_ws r with
          | 44 :: r' => parse_elements fuel' r' (acc ++ [v])
          | 93 :: r' => Some (JArray (acc ++ [v]), r')
          | _ => None
          end
      end
  end

with parse_members (fuel : nat) (s : jsstring) (acc : list (jsstring * t))
  {struct fuel} : option (t * jsstring) :=
  match fuel with
  | O => None
  | S fuel' =>
      match skip_ws s with
      | 34 :: r =>
          match parse_chars r with
          | None => None
          | Some (key, r1) =>
              match skip_ws r1 with
              | 58 :: r2 =>
                  match parse_value fuel' r2 with
                  | None => None
                  | Some (v, r3) =>
                      match skip_ws r3 with
                      | 44 :: r4 => parse_members fuel' r4 (acc ++ [(key, v)])
                      | 125 :: r4 => Some (JObject (acc ++ [(key, v)]), r4)
                      | _ => None
                      end
                  end
              | _ => None
              end
          end
      | _ => None
      end
  end.

(** [JSON.parse(text)]: [Some v] when the whole text is one JSON value
    between optional white space, [None] when it throws [SyntaxError]. *)
Definition parse (text : jsstring) : option t :=
  match parse_value (2 * List.length text + 2) text with
  | Some (v, rest) =>
      match skip_ws rest with
      | [] => Some v
      | _ => None
      end
  | None => None
  end.

(** [obj[key]] on a parsed object: the last member with that key. *)
Fixpoint lookup (key : jsstring) (members : list (jsstring * t)) : option t :=
  match members with
  | [] => None
  | (k, v) :: rest =>
      match lookup key rest with
      | Some v' => Some v'
      | None => if jsstring_eqb k key then Some v else None
      end
  end.

End JSON.

(** ** The chunk decoder *)

Module Decoder.

(** Records are what [JSON.parse] returns: the cast to [MessageUpdate]
    checks nothing. *)
Definition MessageUpdate := JSON.t.

Record ParseResult := {
  messageUpdates : list MessageUpdate;
  remainingText : jsstring
}.

(** The [for (const input of inputs)] loop of [parseMessageUpdates]:
    [acc] is the array built so far and [lastInput] is [inputs.at(-1)].
    [JSON.parse] throws nothing but [SyntaxError], so the [catch] always
    returns. *)
Fixpoint parse_inputs (inputs : list jsstring) (lastInput : jsstring)
    (acc : list MessageUpdate) : ParseResult :=
  match inputs with
  | [] => {| messageUpdates := acc; remainingText := [] |}
  | input :: rest =>
      match JSON.parse input with
      | Some update => parse_inputs rest lastInput (acc ++ [update])
      | None => {| messageUpdates := acc; remainingText := lastInput |}
      end
  end.

Definition parseMessageUpdates (value : jsstring) : ParseResult :=
  let inputs := split_newline value in
  parse_inputs inputs (last inputs []) [].

(** The reader loop of [endpointStreamToIterator], run against the chunks
    the reader delivers before it reports [done].  The result is the
    records yielded and the value of [prevChunk] when the loop is left. *)
Fixpoint read_loop (chunks : list jsstring) (prevChunk : jsstring)
  : list MessageUpdate * jsstring :=
  match chunks with
  | [] => ([], prevChunk)
  | value :: later =>
      match value with
      | [] => read_loop later prevChunk
      | _ =>
          let r := parseMessageUpdates (prevChunk ++ value) in
          let '(yielded, final) := read_loop later (remainingText r) in
          (messageUpdates r ++ yielded, final)
      end
  end.

Definition endpointStreamToIterator (chunks : list jsstring)
  : list MessageUpdate :=
  fst (read_loop chunks []).

(** The two lines of the end-to-end scenario and the records they encode. *)
Definition hel_line : jsstring :=
  js "{" ++ quoted "type" ++ js ":" ++ quoted "stream" ++ js ","
  ++ quoted "token" ++ js ":" ++ quoted "Hel" ++ js "}".
Definition lo_head : jsstring := js "{" ++ quoted "type" ++ js ":".
Definition lo_tail : jsstring :=
  quoted "stream" ++ js "," ++ quoted "token" ++ js ":" ++ quoted "lo" ++ js "}".
Definition lo_line : jsstring := lo_head ++ lo_tail.
(** A line cut after its first four code units. *)
Definition cut_line : jsstring := js "{" ++ QUOTE :: js "ty".
Definition hel_record : MessageUpdate :=
  JSON.JObject [(js "type", JSON.JString (js "stream"));
                (js "token", JSON.JString (js "Hel"))].
Definition lo_record : MessageUpdate :=
  JSON.JObject [(js "type", JSON.JString (js "stream"));
                (js "token", JSON.JString (js "lo"))].

(** A line of the stream and the record it encodes. *)
Definition parses_to (line : jsstring) (record : MessageUpdate) : Prop :=
  newline_free line /\ JSON.parse line = Some record.

(** The records of the segments that come before the first one
    [JSON.parse] refuses. *)
Fixpoint parsed_prefix (inputs : list jsstring) : list MessageUpdate :=
  match inputs with
  | [] => []
  | input :: rest =>
      match JSON.parse input with
      | Some update => update :: parsed_prefix rest
      | None => []
      end
  end.

End Decoder.

(** ** Typed updates

    Past the decoder the stages only look at the discriminant: an update is
    a [Stream] fragment of text or anything else, carried along as it is. *)

Inductive MessageUpdate (Payload : Type) : Type :=
| Stream (token : jsstring)
| NonStream (payload : Payload).
Arguments Stream {Payload} token.
Arguments NonStream {Payload} payload.

(** The text of a sequence of updates: its [Stream] tokens, concatenated. *)
Fixpoint stream_text {Payload} (l : list (MessageUpdate Payload)) : jsstring :=
  match l with
  | [] => []
  | Stream token :: rest => token ++ stream_text rest
  | NonStream _ :: rest => stream_text rest
  end.

(** The payloads of its other updates, in order. *)
Fixpoint non_stream {Payload} (l : list (MessageUpdate Payload)) : list Payload :=
  match l with
  | [] => []
  | Stream _ :: rest => non_stream rest
  | NonStream p :: rest => p :: non_stream rest
  end.

Definition is_stream {Payload} (u : MessageUpdate Payload) : bool :=
  match u with
  | Stream _ => true
  | NonStream _ => false
  end.

(** ** The word coalescer *)

Module Coalescer.
Section WithPayload.

Context {Payload : Type}.
#[local] Abbreviation Update := (MessageUpdate Payload).

(** The character class of the two regular expressions: ASCII letters and
    digits, the code units U+00C0 to U+017E, the apostrophe and the
    backtick. *)
Definition word_char (c : code_unit) : bool :=
  ((97 <=? c) && (c <=? 122)) || ((65 <=? c) && (c <=? 90))
  || ((48 <=? c) && (c <=? 57)) || ((192 <=? c) && (c <=? 382))
  || (c =? 39) || (c =? 96).

(** [endAlphanumeric.test(token)]: the class, once or more, at the end of
    the token; so the last code unit is in the class. *)
Fixpoint endAlphanumeric (token : jsstring) : bool :=
  match token with
  | [] => false
  | [c] => word_char c
  | _ :: rest => endAlphanumeric rest
  end.

(** [beginnningAlphanumeric.test(token)]: the class, once or more, at the
    start of the token; so the first code unit is in the class. *)
Definition beginnningAlphanumeric (token : jsstring) : bool :=
  match token with
  | [] => false
  | c :: _ => word_char c
  end.

(** [buffer.slice(from, to).map(u => u.token).join()], joined on the
    empty string. *)
Definition join_slice (buffer : list jsstring) (from to : nat) : jsstring :=
  concat (firstn (to - from) (skipn from buffer)).

(** The [for (let i = 1; i < buffer.length; i++)] loop, entered at index
    [i] with [steps] iterations left.  It returns what it yields and the
    final [lastIndexEmitted]. *)
Fixpoint scan (steps : nat) (buffer : list jsstring) (i lastIndexEmitted : nat)
  : list Update * nat :=
  match steps with
  | O => ([], lastIndexEmitted)
  | S steps' =>
      let prevEndsAlphanumeric := endAlphanumeric (nth (i - 1) buffer []) in
      let currBeginsAlphanumeric := beginnningAlphanumeric (nth i buffer []) in
      let shouldCombine := prevEndsAlphanumeric && currBeginsAlphanumeric in
      let combinedTooMany := (5 <=? i - lastIndexEmitted)%nat in
      if shouldCombine && negb combinedTooMany
      then scan steps' buffer (S i) lastIndexEmitted
      else
        let '(yielded, final) := scan steps' buffer (S i) i in
        (Stream (join_slice buffer lastIndexEmitted i) :: yielded, final)
  end.

(** The [for await] loop over the upstream updates, with the current
    [bufferedStreamUpdates] (their tokens), and the last line of the
    function once the upstream is exhausted. *)
Fixpoint coalesce (upstream : list Update) (bufferedStreamUpdates : list jsstring)
  : list Update :=
  match upstream with
  | [] => map Stream bufferedStreamUpdates
  | NonStream payload :: rest =>
      match bufferedStreamUpdates with
      | [] => NonStream payload :: coalesce rest []
      | _ =>
          Stream (concat bufferedStreamUpdates)
          :: NonStream payload :: coalesce rest []
      end
  | Stream token :: rest =>
      let buffer := bufferedStreamUpdates ++ [token] in
      let '(yielded, lastIndexEmitted) := scan (List.length buffer - 1) buffer 1 0 in
      yielded ++ coalesce rest (skipn lastIndexEmitted buffer)
  end.

Definition streamMessageUpdatesToFullWords (upstream : list Update)
  : list Update :=
  coalesce upstream [].

End WithPayload.
End Coalescer.

(** ** The pacing scheduler *)

Module Pacer.
Section WithPayload.

Context {Payload : Type}.
#[local] Abbreviation Update := (MessageUpdate Payload).

(** Where the consumer loop of [smoothAsyncIterator] is suspended: before
    the test of the outer [while] (at the start, after [sleep] and after
    [waitForDataOrTimeout]), at the [yield] of the inner [while], or not at
    all, the loop being left. *)
Inductive Control : Type :=
| AtLoopTest
| InnerYield
| Returned.

(** The variables the two tasks share, the rest of the upstream iterator
    and what the generator has yielded so far.  The timing variables
    ([currentSpeed], [accumulatedTime], ...) only serve to compute
    [charsToProcess], which an event supplies. *)
Record State : Type := {
  upstream : list Update;
  charQueue : jsstring;
  pendingNonStreamUpdates : list Update;
  iteratorDone : bool;
  control : Control;
  yielded : list Update
}.

Definition initial (iterator : list Update) : State :=
  {| upstream := iterator; charQueue := []; pendingNonStreamUpdates := [];
     iteratorDone := false; control := AtLoopTest; yielded := [] |}.

(** One turn of [consumeIterator]: the body of its [for await] for the next
    update, or the assignment after the loop when there is none. *)
Definition produce (st : State) : State :=
  match upstream st with
  | Stream token :: rest =>
      {| upstream := rest; charQueue := charQueue st ++ token;
         pendingNonStreamUpdates := pendingNonStreamUpdates st;
         iteratorDone := iteratorDone st; control := control st;
         yielded := yielded st |}
  | NonStream payload :: rest =>
      {| upstream := rest; charQueue := charQueue st;
         pendingNonStreamUpdates := pendingNonStreamUpdates st ++ [NonStream payload];
         iteratorDone := iteratorDone st; control := control st;
         yielded := yielded st |}
  | [] =>
      {| upstream := []; charQueue := charQueue st;
         pendingNonStreamUpdates := pendingNonStreamUpdates st;
         iteratorDone := true; control := control st;
         yielded := yielded st |}
  end.

(** [!iteratorDone || charQueue.length > 0 || pendingNonStreamUpdates.length > 0] *)
Definition loop_test (st : State) : bool :=
  negb (iteratorDone st)
  || negb (List.length (charQueue st) =? 0)%nat
  || negb (List.length (pendingNonStreamUpdates st) =? 0)%nat.

(** The [if (charQueue.length > 0) ... else if (!iteratorDone) ...] part of
    the loop body, entered with an empty pending queue.  [charsToProcess] is
    the value of [Math.floor((accumulatedTime * currentSpeed) / 1000)]: an
    integer; a [NaN] fails [charsToProcess > 0] as a non-positive value
    does, and an infinite one takes the whole queue as any value beyond its
    length does.  With an empty queue and a finished producer the body ends
    without suspending and the loop test, then false, ends the loop. *)
Definition frame (charsToProcess : Z) (st : State) : State :=
  match charQueue st with
  | _ :: _ =>
      if (0 <? charsToProcess)%Z then
        let actualChars :=
          Z.to_nat (Z.min charsToProcess (Z.of_nat (List.length (charQueue st)))) in
        {| upstream := upstream st;
           charQueue := skipn actualChars (charQueue st);
           pendingNonStreamUpdates := pendingNonStreamUpdates st;
           iteratorDone := iteratorDone st; control := AtLoopTest;
           yielded := yielded st ++ [Stream (firstn actualChars (charQueue st))] |}
      else
        {| upstream := upstream st; charQueue := charQueue st;
           pendingNonStreamUpdates := pendingNonStreamUpdates st;
           iteratorDone := iteratorDone st; control := AtLoopTest;
           yielded := yielded st |}
  | [] =>
      {| upstream := upstream st; charQueue := [];
         pendingNonStreamUpdates := pendingNonStreamUpdates st;
         iteratorDone := iteratorDone st;
         control := if iteratorDone st then Returned else AtLoopTest;
         yielded := yielded st |}
  end.

(** The loop body from the test of the inner [while] to the next
    suspension. *)
Definition body (charsToProcess : Z) (st : State) : State :=
  match pendingNonStreamUpdates st with
  | update :: rest =>
      {| upstream := upstream st; charQueue := charQueue st;
         pendingNonStreamUpdates := rest;
         iteratorDone := iteratorDone st; control := InnerYield;
         yielded := yielded st ++ [update] |}
  | [] => frame charsToProcess st
  end.

(** The consumer resumed from where it is suspended. *)
Definition resume (charsToProcess : Z) (st : State) : State :=
  match control st with
  | Returned => st
  | InnerYield => body charsToProcess st
  | AtLoopTest =>
      if loop_test st then body charsToProcess st
      else
        {| upstream := upstream st; charQueue := charQueue st;
           pendingNonStreamUpdates := pendingNonStreamUpdates st;
           iteratorDone := iteratorDone st; control := Returned;
           yielded := yielded st |}
  end.

(** The single-threaded scheduler picks, at every suspension, which task
    runs next: the producer, for one update, or the consumer, to its next
    suspension and with the budget its frame arithmetic comes to. *)
Inductive Event : Type :=
| Produce
| Resume (charsToProcess : Z).

Definition step (st : State) (e : Event) : State :=
  match e with
  | Produce => produce st
  | Resume charsToProcess => resume charsToProcess st
  end.

Definition run (schedule : list Event) (st : State) : State :=
  fold_left step schedule st.

(** What [smoothAsyncIterator] has yielded after a schedule. *)
Definition smoothAsyncIterator (iterator : list Update) (schedule : list Event)
  : list Update :=
  yielded (run schedule (initial iterator)).

(** For every other update yielded, the number of code units of [Stream]
    text yielded before it. *)
Fixpoint offsets_from (before : nat) (l : list Update) : list (Payload * nat) :=
  match l with
  | [] => []
  | Stream token :: rest => offsets_from (before + List.length token) rest
  | NonStream payload :: rest => (payload, before) :: offsets_from before rest
  end.

Definition offsets (l : list Update) : list (Payload * nat) := offsets_from 0 l.

(** An update yielded at the place [o] against the update at the place [i]
    of the input: the same update, with no more text before it. *)
Definition keeps_place (o i : Payload * nat) : Prop :=
  fst o = fst i /\ (snd o <= snd i)%nat.

Definition nonempty_stream (u : Update) : Prop :=
  match u with
  | Stream token => token <> []
  | NonStream _ => True
  end.

(** The turns a schedule gives the producer, and the frames it gives the
    consumer with a positive budget. *)
Fixpoint produces (schedule : list Event) : nat :=
  match schedule with
  | [] => 0
  | Produce :: rest => S (produces rest)
  | Resume _ :: rest => produces rest
  end.

Fixpoint positive_resumes (schedule : list Event) : nat :=
  match schedule with
  | [] => 0
  | Produce :: rest => positive_resumes rest
  | Resume charsToProcess :: rest =>
      if (0 <? charsToProcess)%Z then S (positive_resumes rest)
      else positive_resumes rest
  end.

(** What the consumer has yet to yield of what the producer has queued. *)
Definition backlog (st : State) : nat :=
  (List.length (pendingNonStreamUpdates st) + List.length (charQueue st))%nat.

(** What holds of every state a schedule leads to from [initial input]:
    [consumed] is what the producer has taken, [matched] and [waiting] are
    the places in it of the other updates yielded and still pending. *)
Record invariant (input consumed : list Update)
    (matched waiting : list (Payload * nat)) (st : State) : Prop := {
  inv_input : input = consumed ++ upstream st;
  inv_text : stream_text (yielded st) ++ charQueue st = stream_text consumed;
  inv_pending : Forall (fun u => is_stream u = false) (pendingNonStreamUpdates st);
  inv_done : iteratorDone st = true -> upstream st = [];
  inv_nonempty : Forall nonempty_stream (yielded st);
  inv_returned :
    control st = Returned ->
    iteratorDone st = true /\ charQueue st = [] /\ pendingNonStreamUpdates st = [];
  inv_offsets : offsets consumed = matched ++ waiting;
  inv_matched : Forall2 keeps_place (offsets (yielded st)) matched;
  inv_waiting :
    Forall (fun i => (List.length (stream_text (yielded st)) <= snd i)%nat) waiting;
  inv_waiting_pending : map fst waiting = non_stream (pendingNonStreamUpdates st)
}.

End WithPayload.
End Pacer.

(** ** The transport checks of [fetchMessageUpdates] *)

Module Fetch.

(** What the function reads of the [Response]: the text of the body is
    [None] when [response.body] is [null]. *)
Record Response : Type := {
  status : N;
  statusText : jsstring;
  body : option jsstring
}.

(** [response.ok]: the status is in the range 200-299. *)
Definition ok (response : Response) : bool :=
  (200 <=? status response) && (status response <=? 299).

(** [response.json()]: the body text through [JSON.parse]; [None] when the
    promise rejects.  A response without body has an empty text. *)
Definition json (response : Response) : option JSON.t :=
  JSON.parse (match body response with Some text => text | None => [] end).

(** The value of a property read: a parsed value or [undefined]. *)
Inductive JSValue : Type :=
| Undefined
| Value (v : JSON.t).

(** [obj.message]: [None] when the read throws, which it does on [null]
    only; numbers, booleans, strings and arrays have no such property. *)
Definition get_message (obj : JSON.t) : option JSValue :=
  match obj with
  | JSON.JNull => None
  | JSON.JObject members =>
      match JSON.lookup (js "message") members with
      | Some v => Some (Value v)
      | None => Some Undefined
      end
  | _ => Some Undefined
  end.

(** The [message] of an error: a text, or the conversion to a string of a
    value that is not one, which is left as it is. *)
Inductive ErrorMessage : Type :=
| Text (s : jsstring)
| ToStringOf (v : JSON.t).

(** [Error(x).message]: empty for [undefined], [ToString(x)] otherwise. *)
Definition Error (x : JSValue) : ErrorMessage :=
  match x with
  | Undefined => Text []
  | Value (JSON.JString s) => Text s
  | Value v => ToStringOf v
  end.

(** The decimal digits of a number, as template literals print it. *)
Fixpoint decimal_from (fuel : nat) (n : N) (acc : jsstring) : jsstring :=
  match fuel with
  | O => acc
  | S fuel' =>
      let acc' := (48 + n mod 10) :: acc in
      if n / 10 =? 0 then acc' else decimal_from fuel' (n / 10) acc'
  end.

Definition decimal (n : N) : jsstring := decimal_from (S (N.to_nat (N.log2 n))) n [].

Definition fallback_message (response : Response) : jsstring :=
  js "Request failed with status code " ++ decimal (status response)
  ++ js ": " ++ statusText response.

(** [response.json().then((obj) => obj.message).catch(() => `...`)] *)
Definition errorMessage (response : Response) : JSValue :=
  match json response with
  | None => Value (JSON.JString (fallback_message response))
  | Some obj =>
      match get_message obj with
      | None => Value (JSON.JString (fallback_message response))
      | Some x => x
      end
  end.

(** How the function ends: it throws, or returns one of its two pipelines,
    the decoder alone or the decoder under the coalescer and the pacer. *)
Inductive Outcome : Type :=
| Throws (message : ErrorMessage)
| ReturnsDecoder
| ReturnsSmooth.

Definition fetchMessageUpdates (response : Response)
    (PUBLIC_SMOOTH_UPDATES : jsstring) : Outcome :=
  if negb (ok response) then Throws (Error (errorMessage response))
  else
    match body response with
    | None => Throws (Text (js "Body not defined"))
    | Some _ =>
        if negb (jsstring_eqb PUBLIC_SMOOTH_UPDATES (js "true"))
        then ReturnsDecoder
        else ReturnsSmooth
    end.

End Fetch.

(** ** What the coalescer does to a sequence of updates

    A reading of its output: the upstream cut into groups of neighbouring
    [Stream] fragments and single other updates. *)

Module Grouping.
Section WithPayload.

Context {Payload : Type}.
#[local] Abbreviation Update := (MessageUpdate Payload).

Inductive Item : Type :=
| Group (tokens : list jsstring)
| Other (payload : Payload).

(** The updates an item stands for, and the update it is yielded as. *)
Definition expand_item (item : Item) : list Update :=
  match item with
  | Group tokens => map Stream tokens
  | Other payload => [NonStream payload]
  end.

Definition render_item (item : Item) : Update :=
  match item with
  | Group tokens => Stream (concat tokens)
  | Other payload => NonStream payload
  end.

Definition expand (items : list Item) : list Update := flat_map expand_item items.
Definition render (items : list Item) : list Update := map render_item items.

Definition well_sized (item : Item) : Prop :=
  match item with
  | Group tokens => (1 <= List.length tokens <= 5)%nat
  | Other _ => True
  end.

(** No [Stream] fragment is followed at once by one that continues its
    word. *)
Fixpoint unglued (l : list Update) : Prop :=
  match l with
  | [] => True
  | Stream a :: rest =>
      match rest with
      | Stream b :: _ =>
          Coalescer.endAlphanumeric a && Coalescer.beginnningAlphanumeric b = false
      | _ => True
      end
      /\ unglued rest
  | NonStream _ :: rest => unglued rest
  end.

End WithPayload.
End Grouping.

(** ** What a schedule grants the consumer *)

Module Budget.

(** The code units the frames of a schedule allow, a frame with no positive
    budget allowing none. *)
Fixpoint granted (schedule : list Pacer.Event) : nat :=
  match schedule with
  | [] => 0
  | Pacer.Produce :: rest => granted rest
  | Pacer.Resume charsToProcess :: rest =>
      (Z.to_nat charsToProcess + granted rest)%nat
  end.

End Budget.

(** ** Tool updates: the type guards and the state derived from them

    The guards are those at the end of [messageUpdates.ts]; the derived
    state is that of the component that shows the updates of one tool call.
    The enumerations [MessageUpdateType] and [MessageToolUpdateType] are
    declared outside the files at hand: the members the code names are
    parameters here. *)

Module ToolUpdates.
Section WithEnumerations.

Variables Tool Call Result Error Progress : jsstring.

(** What the guards and the component read of an update: its [type], its
    [subtype] when it has one, and the name of its call. *)
Record Update : Type := {
  type : jsstring;
  subtype : option jsstring;
  call_name : jsstring
}.

(** [update.subtype === member], false on a missing [subtype]. *)
Definition subtype_is (update : Update) (member : jsstring) : bool :=
  match subtype update with
  | Some s => jsstring_eqb s member
  | None => false
  end.

Definition isMessageToolUpdate (update : Update) : bool :=
  jsstring_eqb (type update) Tool.

Definition isMessageToolCallUpdate (update : Update) : bool :=
  isMessageToolUpdate update && subtype_is update Call.

Definition isMessageToolResultUpdate (update : Update) : bool :=
  isMessageToolUpdate update && subtype_is update Result.

Definition isMessageToolErrorUpdate (update : Update) : bool :=
  isMessageToolUpdate update && subtype_is update Error.

Definition isMessageToolProgressUpdate (update : Update) : bool :=
  isMessageToolUpdate update && subtype_is update Progress.

(** [tool.find(isMessageToolCallUpdate)?.call.name] *)
Definition toolFnName (tool : list Update) : option jsstring :=
  match find isMessageToolCallUpdate tool with
  | Some update => Some (call_name update)
  | None => None
  end.

Definition toolError (tool : list Update) : bool :=
  existsb isMessageToolErrorUpdate tool.

Definition toolDone (tool : list Update) : bool :=
  existsb isMessageToolResultUpdate tool.

Definition isExecuting (tool : list Update) (loading : bool) : bool :=
  negb (toolDone tool) && negb (toolError tool) && loading.

Definition toolSuccess (tool : list Update) : bool :=
  toolDone tool && negb (toolError tool).

(** The loop [for (let i = tool.length - 1; i >= 0; i -= 1)], entered with
    [i + 1 = count]. *)
Fixpoint toolProgress_from (count : nat) (tool : list Update) : option Update :=
  match count with
  | O => None
  | S i =>
      match nth_error tool i with
      | Some update =>
          if isMessageToolProgressUpdate update then Some update
          else toolProgress_from i tool
      | None => toolProgress_from i tool
      end
  end.

Definition toolProgress (tool : list Update) : option Update :=
  toolProgress_from (List.length tool) tool.

(** [{#if toolFnName}], the test around all the component renders: the
    name is truthy, that is, a call update was found and its name is not
    the empty string. *)
Definition shown (tool : list Update) : bool :=
  match toolFnName tool with
  | Some (_ :: _) => true
  | _ => false
  end.

(** The words of the header before [tool]; there is no header when the
    block is not rendered. *)
Definition header (tool : list Update) : option jsstring :=
  if shown tool then
    Some (if toolError tool then js "Error calling"
          else if toolDone tool then js "Called"
          else js "Calling")
  else None.

End WithEnumerations.
End ToolUpdates.

(** ** The reasoning panel of [OpenReasoningResults.svelte] *)

Module Reasoning.

(** The state of the component: [isOpen], [wasLoading], [initialized]. *)
Record Panel : Type := {
  isOpen : bool;
  wasLoading : bool;
  initialized : bool
}.

(** The three [$state] declarations. *)
Definition created : Panel :=
  {| isOpen := false; wasLoading := false; initialized := false |}.

(** The effect from the test of [loading && !wasLoading] to its end. *)
Definition track (loading : bool) (p : Panel) : Panel :=
  {| isOpen :=
       if loading && negb (wasLoading p) then true
       else if negb loading && wasLoading p then false
       else isOpen p;
     wasLoading := loading;
     initialized := initialized p |}.

(** One run of the [$effect], with the current value of [loading]. *)
Definition effect (loading : bool) (p : Panel) : Panel :=
  if negb (initialized p) then
    if loading
    then {| isOpen := true; wasLoading := true; initialized := true |}
    else track loading
           {| isOpen := isOpen p; wasLoading := wasLoading p; initialized := true |}
  else track loading p.

(** [onclick={() => (isOpen = !isOpen)}] *)
Definition click (p : Panel) : Panel :=
  {| isOpen := negb (isOpen p); wasLoading := wasLoading p;
     initialized := initialized p |}.

(** What happens to a mounted component: [loading] is given a value, after
    which the effect runs, or a button is clicked. *)
Inductive Action : Type :=
| SetLoading (loading : bool)
| Click.

Definition act (p : Panel) (a : Action) : Panel :=
  match a with
  | SetLoading loading => effect loading p
  | Click => click p
  end.

(** The component mounted with [loading], then the actions on it. *)
Definition after (loading : bool) (actions : list Action) : Panel :=
  fold_left act actions (effect loading created).

(** The value [loading] has after the actions, and whether the clicks since
    it last changed are odd in number. *)
Fixpoint follow (loading odd : bool) (actions : list Action) : bool * bool :=
  match actions with
  | [] => (loading, odd)
  | SetLoading l :: rest =>
      if Bool.eqb l loading then follow loading odd rest else follow l false rest
  | Click :: rest => follow loading (negb odd) rest
  end.

(** *** The preview of the collapsed panel *)

(** The class of the first [replace]: the characters # * _ ` ~ and the
    square brackets. *)
Definition is_mark (c : code_unit) : bool :=
  (c =? 35) || (c =? 42) || (c =? 95) || (c =? 96) || (c =? 126)
  || (c =? 91) || (c =? 93).

(** The first [replace]: every character of the class removed. *)
Definition strip_marks (s : jsstring) : jsstring :=
  filter (fun c => negb (is_mark c)) s.

(** The second [replace]: every run of newlines becomes one space (the
    last newline of the run gives the space). *)
Fixpoint collapse_newlines (s : jsstring) : jsstring :=
  match s with
  | [] => []
  | c :: rest =>
      if c =? NEWLINE then
        match rest with
        | next :: _ =>
            if next =? NEWLINE then collapse_newlines rest
            else 32 :: collapse_newlines rest
        | [] => [32]
        end
      else c :: collapse_newlines rest
  end.

(** What [trim] removes: the white space and the line terminators of
    ECMAScript. *)
Definition is_space (c : code_unit) : bool :=
  (c =? 9) || (c =? 10) || (c =? 11) || (c =? 12) || (c =? 13) || (c =? 32)
  || (c =? 160) || (c =? 5760) || ((8192 <=? c) && (c <=? 8202))
  || (c =? 8232) || (c =? 8233) || (c =? 8239) || (c =? 8287)
  || (c =? 12288) || (c =? 65279).

Fixpoint trimStart (s : jsstring) : jsstring :=
  match s with
  | c :: rest => if is_space c then trimStart rest else s
  | [] => []
  end.

Definition trimEnd (s : jsstring) : jsstring := rev (trimStart (rev s)).

Definition trim (s : jsstring) : jsstring := trimEnd (trimStart s).

(** The text shown beside the title while the panel is closed. *)
Definition preview (content : jsstring) : jsstring :=
  trim (collapse_newlines (strip_marks content)).

End Reasoning.

(** ** The pacing scheduler with its frame arithmetic

    The same two tasks as in [Pacer], with [charsToProcess] computed as
    the code computes it, in IEEE binary64 arithmetic, from the readings of
    [performance.now()].  Lengths are integers; the other timing variables
    are floating-point numbers. *)

Module Timed.
Section WithPayload.

Context {Payload : Type}.
#[local] Abbreviation Update := (MessageUpdate Payload).

Definition float : Set := PrimFloat.float.

(** An integer below 2^53 as a number. *)
Definition integer (z : Z) : float := PrimFloat.of_uint63 (Uint63.of_Z z).

(** An array length as a number. *)
Definition number (n : nat) : float := integer (Z.of_nat n).

(** The literals of the function: the decimal literals are the doubles
    nearest to their values, which a correctly rounded division gives. *)
Definition START_ANIMATION_SPEED : nat := 30.
Definition thousand : float := integer 1000.
Definition rate_per_character : float := PrimFloat.div (integer 8) (integer 10000).
Definition rate_base : float := PrimFloat.div (integer 5) (integer 1000).

(** [Math.floor]: a finite number with a non-negative exponent is an
    integer already; otherwise the significand is shifted and, for a
    negative number with a fraction, rounded away from zero. *)
Definition floor (x : float) : float :=
  match FloatOps.Prim2SF x with
  | SpecFloat.S754_finite negative m e =>
      if (0 <=? e)%Z then x
      else
        let q := Z.shiftr (Z.pos m) (- e) in
        let whole := (Z.pos m mod 2 ^ (- e) =? 0)%Z in
        let magnitude := if negative && negb whole then (q + 1)%Z else q in
        let f := integer magnitude in
        if negative then PrimFloat.opp f else f
  | _ => x
  end.

(** The integer [Math.min(charsToProcess, charQueue.length)] is taken from,
    for a [charsToProcess] that passes [charsToProcess > 0]; an infinite
    one takes the whole queue.  Zero stands for one that fails the test. *)
Definition budget (charsToProcess : float) (queued : nat) : Z :=
  if PrimFloat.ltb PrimFloat.zero charsToProcess then
    match FloatOps.Prim2SF charsToProcess with
    | SpecFloat.S754_finite _ m e => Z.shiftl (Z.pos m) e
    | SpecFloat.S754_infinity _ => Z.of_nat queued
    | _ => 0%Z
    end
  else 0%Z.

(** The timing variables of the generator; [waited] holds while the
    assignment that follows [waitForDataOrTimeout] is still to run. *)
Record State : Type := {
  pacer : @Pacer.State Payload;
  currentSpeed : float;
  lastQueueLength : nat;
  accumulatedTime : float;
  lastFrameTime : float;
  waited : bool
}.

(** The generator started at time [started]. *)
Definition initial (iterator : list Update) (started : float) : State :=
  {| pacer := Pacer.initial iterator;
     currentSpeed := number START_ANIMATION_SPEED;
     lastQueueLength := 0; accumulatedTime := PrimFloat.zero;
     lastFrameTime := started; waited := false |}.

(** Where a resumed consumer goes. *)
Inductive Branch : Type :=
| Stays
| Leaves
| Drains
| Animates
| Waits.

Definition branch (p : @Pacer.State Payload) : Branch :=
  match Pacer.control p with
  | Pacer.Returned => Stays
  | Pacer.InnerYield | Pacer.AtLoopTest =>
      if match Pacer.control p with
         | Pacer.AtLoopTest => negb (Pacer.loop_test p)
         | _ => false
         end
      then Leaves
      else
        match Pacer.pendingNonStreamUpdates p with
        | _ :: _ => Drains
        | [] =>
            match Pacer.charQueue p with
            | _ :: _ => Animates
            | [] => if Pacer.iteratorDone p then Leaves else Waits
            end
        end
  end.

(** [lastFrameTime] as the animation branch finds it when
    [performance.now()] reads [now]. *)
Definition frameStart (now : float) (st : State) : float :=
  if waited st then now else lastFrameTime st.

(** [accumulatedTime] after [accumulatedTime += frameDuration]. *)
Definition accumulated (now : float) (st : State) : float :=
  PrimFloat.add (accumulatedTime st) (PrimFloat.sub now (frameStart now st)).

(** [currentSpeed] after its adjustment. *)
Definition speed (st : State) : float :=
  let queued := List.length (Pacer.charQueue (pacer st)) in
  let targetSpeed := number (Nat.max START_ANIMATION_SPEED queued) in
  let speedChangeRate :=
    PrimFloat.add
      (PrimFloat.mul
         (number (Nat.max queued (lastQueueLength st)
                  - Nat.min queued (lastQueueLength st)))
         rate_per_character)
      rate_base in
  PrimFloat.add (currentSpeed st)
    (PrimFloat.mul (PrimFloat.sub targetSpeed (currentSpeed st)) speedChangeRate).

(** [Math.floor((accumulatedTime * currentSpeed) / 1000)] *)
Definition charsToProcess (now : float) (st : State) : float :=
  floor (PrimFloat.div (PrimFloat.mul (accumulated now st) (speed st)) thousand).

(** The consumer resumed while [performance.now()] reads [now].  In the
    animation branch the statements of the source follow one another; the
    producer has no turn between the [yield] of the token and the
    assignment of [lastQueueLength], which is one of the schedules of the
    code. *)
Definition resume (now : float) (st : State) : State :=
  match branch (pacer st) with
  | Animates =>
      let queued := List.length (Pacer.charQueue (pacer st)) in
      let after := Pacer.resume (budget (charsToProcess now st) queued) (pacer st) in
      {| pacer := after;
         currentSpeed := speed st;
         lastQueueLength := List.length (Pacer.charQueue after);
         accumulatedTime :=
           if PrimFloat.ltb PrimFloat.zero (charsToProcess now st)
           then PrimFloat.sub (accumulated now st)
                  (PrimFloat.div (PrimFloat.mul (charsToProcess now st) thousand)
                     (speed st))
           else accumulated now st;
         lastFrameTime := now;
         waited := false |}
  | Waits =>
      {| pacer := Pacer.resume 0 (pacer st);
         currentSpeed := currentSpeed st;
         lastQueueLength := lastQueueLength st;
         accumulatedTime := accumulatedTime st;
         lastFrameTime := frameStart now st;
         waited := true |}
  | Stays | Leaves | Drains =>
      {| pacer := Pacer.resume 0 (pacer st);
         currentSpeed := currentSpeed st;
         lastQueueLength := lastQueueLength st;
         accumulatedTime := accumulatedTime st;
         lastFrameTime := frameStart now st;
         waited := false |}
  end.

Definition produce (st : State) : State :=
  {| pacer := Pacer.produce (pacer st);
     currentSpeed := currentSpeed st;
     lastQueueLength := lastQueueLength st;
     accumulatedTime := accumulatedTime st;
     lastFrameTime := lastFrameTime st;
     waited := waited st |}.

Inductive Event : Type :=
| Produce
| Resume (now : float).

Definition step (st : State) (e : Event) : State :=
  match e with
  | Produce => produce st
  | Resume now => resume now st
  end.

Definition run (schedule : list Event) (st : State) : State :=
  fold_left step schedule st.

(** The event of [Pacer] a timed event comes to in a state: the same turn,
    a resumption with the budget its arithmetic gives. *)
Definition abstract_event (st : State) (e : Event) : Pacer.Event :=
  match e with
  | Produce => Pacer.Produce
  | Resume now =>
      Pacer.Resume
        match branch (pacer st) with
        | Animates =>
            budget (charsToProcess now st)
              (List.length (Pacer.charQueue (pacer st)))
        | _ => 0%Z
        end
  end.

Fixpoint abstract (schedule : list Event) (st : State) : list Pacer.Event :=
  match schedule with
  | [] => []
  | e :: rest => abstract_event st e :: abstract rest (step st e)
  end.

(** The consumer with text queued, nothing else to come, and an
    [accumulatedTime] that is not a number. *)
Definition stalled (st : State) : Prop :=
  accumulatedTime st = PrimFloat.nan
  /\ Pacer.upstream (pacer st) = []
  /\ Pacer.iteratorDone (pacer st) = true
  /\ Pacer.pendingNonStreamUpdates (pacer st) = []
  /\ Pacer.charQueue (pacer st) <> []
  /\ Pacer.control (pacer st) = Pacer.AtLoopTest.

(** Bursts: the upstream yields [count] tokens of [size] code units, one
    before every frame, the frames 16 ms apart; the consumer starts, finds
    nothing and waits; the producer has its last turn at the end. *)
Definition burst_input (size count : nat) : list Update :=
  repeat (Stream (repeat 97 size)) count.

Fixpoint burst_frames (count : nat) (frame : nat) : list Event :=
  match count with
  | O => [Produce]
  | S count' =>
      Produce :: Resume (number (16 * frame)) :: burst_frames count' (S frame)
  end.

Definition burst_schedule (count : nat) : list Event :=
  Resume PrimFloat.zero :: burst_frames count 1.

End WithPayload.
End Timed.

(** * Properties of the chunk decoder *)

Section DecoderProperties.

Import Decoder.

Lemma jsstring_eqb_eq a b : jsstring_eqb a b = true <-> a = b.
Proof.
  revert b; induction a as [|x a IH]; intros [|y b]; simpl; try easy.
  rewrite andb_true_iff, N.eqb_eq, IH. split.
  - intros [-> ->]; reflexivity.
  - intros [= -> ->]; auto.
Qed.

Lemma newline_free_cons c l :
  newline_free (c :: l) <-> c <> NEWLINE /\ newline_free l.
Proof.
  unfold newline_free; simpl; split.
  - intros H; split; [intros ->; apply H; now left | intros Hin; apply H; now right].
  - intros [Hc Hl] [Heq | Hin]; [now apply Hc | now apply Hl].
Qed.

Lemma newline_free_eqb c l : newline_free (c :: l) -> (c =? NEWLINE) = false.
Proof. rewrite newline_free_cons; intros [Hc _]; now apply N.eqb_neq. Qed.

Lemma split_newline_not_nil s : split_newline s <> [].
Proof.
  destruct s as [|c r]; simpl; [discriminate|].
  destruct (c =? NEWLINE); [discriminate|].
  destruct (split_newline r); discriminate.
Qed.

Lemma split_newline_app l r :
  newline_free l ->
  split_newline (l ++ NEWLINE :: r) = l :: split_newline r.
Proof.
  induction l as [|c l IH]; intros Hfree; simpl.
  - reflexivity.
  - rewrite (newline_free_eqb _ _ Hfree).
    apply newline_free_cons in Hfree as [_ Hl].
    now rewrite (IH Hl).
Qed.

Lemma split_newline_free l : newline_free l -> split_newline l = [l].
Proof.
  induction l as [|c l IH]; intros Hfree; simpl; [reflexivity|].
  rewrite (newline_free_eqb _ _ Hfree).
  apply newline_free_cons in Hfree as [_ Hl].
  now rewrite (IH Hl).
Qed.

Lemma split_newline_terminated lines partial :
  Forall newline_free lines -> newline_free partial ->
  split_newline (terminated lines ++ partial) = lines ++ [partial].
Proof.
  induction 1 as [|l lines Hl _ IH]; intros Hp; simpl.
  - now apply split_newline_free.
  - rewrite <- !app_assoc; simpl.
    rewrite (split_newline_app _ _ Hl). now rewrite (IH Hp).
Qed.




(** The loop emits the records of the leading segments that parse, after
    those it entered with. *)
Lemma parse_inputs_updates inputs lastInput acc :
  messageUpdates (parse_inputs inputs lastInput acc) = acc ++ parsed_prefix inputs.
Proof.
  revert acc; induction inputs as [|i rest IH]; intros acc; simpl.
  - now rewrite app_nil_r.
  - destruct (JSON.parse i); simpl.
    + rewrite IH, <- app_assoc. reflexivity.
    + now rewrite app_nil_r.
Qed.

Lemma parse_inputs_failure inputs lastInput acc :
  Exists (fun s => JSON.parse s = None) inputs ->
  remainingText (parse_inputs inputs lastInput acc) = lastInput.
Proof.
  revert acc; induction inputs as [|i rest IH]; intros acc Hex.
  - inversion Hex.
  - simpl. destruct (JSON.parse i) eqn:E; [|reflexivity].
    apply IH. inversion Hex; subst; [congruence | assumption].
Qed.




Lemma parsed_prefix_lines lines records rest :
  Forall2 parses_to lines records ->
  parsed_prefix (lines ++ rest) = records ++ parsed_prefix rest.
Proof.
  induction 1 as [|l r lines records [_ Hl] _ IH]; simpl; [reflexivity|].
  now rewrite Hl, IH.
Qed.

Lemma parses_to_newline_free lines records :
  Forall2 parses_to lines records -> Forall newline_free lines.
Proof. induction 1 as [|? ? ? ? [H _]]; constructor; auto. Qed.


Lemma newline_free_forallb s :
  forallb (fun c => negb (c =? NEWLINE)) s = true -> newline_free s.
Proof.
  induction s as [|c s IH]; simpl; [intros _ []|].
  rewrite andb_true_iff, negb_true_iff, N.eqb_neq. intros [Hc Hs].
  apply newline_free_cons; auto.
Qed.

Lemma last_snoc {A} (l : list A) (x d : A) : last (l ++ [x]) d = x.
Proof. apply last_last. Qed.

(** What one step of the decoder does on complete lines followed by a
    pending text that does not parse. *)
Lemma parseMessageUpdates_lines lines records partial :
  Forall2 parses_to lines records ->
  newline_free partial -> JSON.parse partial = None ->
  parseMessageUpdates (terminated lines ++ partial)
  = {| messageUpdates := records; remainingText := partial |}.
Proof.
  intros Hlines Hfree Hfail.
  pose proof (parse_inputs_updates (split_newline (terminated lines ++ partial))
                (last (split_newline (terminated lines ++ partial)) []) []) as Hu.
  pose proof (parse_inputs_failure (split_newline (terminated lines ++ partial))
                (last (split_newline (terminated lines ++ partial)) []) []) as Hr.
  unfold parseMessageUpdates.
  destruct (parse_inputs _ _ _) as [updates remaining]; simpl in *.
  rewrite split_newline_terminated in *
    by eauto using parses_to_newline_free.
  rewrite last_snoc in Hr.
  rewrite (parsed_prefix_lines _ _ _ Hlines) in Hu. simpl in Hu.
  rewrite Hfail, app_nil_r in Hu. subst updates.
  rewrite Hr; [reflexivity|].
  apply Exists_app; right. now constructor.
Qed.

Lemma read_loop_app chunks later prevChunk :
  read_loop (chunks ++ later) prevChunk
  = let '(yielded1, carry1) := read_loop chunks prevChunk in
    let '(yielded2, carry2) := read_loop later carry1 in
    (yielded1 ++ yielded2, carry2).
Proof.
  revert prevChunk; induction chunks as [|value chunks IH]; intros prevChunk; simpl.
  - now destruct (read_loop later prevChunk).
  - destruct value as [|c value]; [apply IH|].
    rewrite IH.
    destruct (read_loop chunks _) as [y1 c1].
    destruct (read_loop later c1) as [y2 c2].
    now rewrite app_assoc.
Qed.

Lemma newline_free_app a b :
  newline_free (a ++ b) <-> newline_free a /\ newline_free b.
Proof.
  unfold newline_free. rewrite in_app_iff. tauto.
Qed.

(** A prefix of a stream of complete lines is some of the lines and the
    beginning of the next. *)
Lemma prefix_of_terminated (lines : list jsstring) (text rest : jsstring) :
  Forall newline_free lines ->
  text ++ rest = terminated lines ->
  exists done remaining pending,
    lines = done ++ remaining
    /\ text = terminated done ++ pending
    /\ newline_free pending
    /\ pending ++ rest = terminated remaining.
Proof.
  intros Hfree; revert text; induction Hfree as [|l lines Hl _ IH]; intros text Heq.
  - apply app_eq_nil in Heq as [-> ->]. exists [], [], []. repeat split. intros [].
  - simpl in Heq. rewrite <- app_assoc in Heq. simpl in Heq.
    apply app_eq_app in Heq as [m [[Ht Hm] | [Hl' Hr]]].
    + destruct m as [|c m'].
      * rewrite app_nil_r in Ht. subst text. simpl in Hm.
        exists [], (l :: lines), l. repeat split; auto.
        rewrite <- Hm. simpl. now rewrite <- app_assoc.
      * injection Hm as <- Hm. symmetry in Hm.
        destruct (IH _ Hm) as (done & remaining & pending & Hlines & Htext & Hp & Hrest).
        exists (l :: done), remaining, pending. repeat split; auto.
        -- simpl. now rewrite Hlines.
        -- simpl. rewrite Ht, Htext, <- !app_assoc. reflexivity.
    + subst l. apply newline_free_app in Hl as [Htext _].
      exists [], ((text ++ m) :: lines), text. repeat split; auto.
      simpl. now rewrite Hr, <- !app_assoc.
Qed.

Lemma split_newline_last_terminated (lines : list jsstring) (text : jsstring) :
  Forall newline_free lines ->
  last (split_newline (terminated lines ++ text)) []
  = last (split_newline text) [].
Proof.
  induction 1 as [|l lines Hl _ IH]; [reflexivity|].
  simpl. rewrite <- !app_assoc. simpl.
  rewrite (split_newline_app _ _ Hl).
  destruct (split_newline (terminated lines ++ text)) eqn:E;
    [now apply split_newline_not_nil in E|].
  exact IH.
Qed.

Lemma terminated_newline_free (lines : list jsstring) :
  newline_free (terminated lines) -> lines = [].
Proof.
  destruct lines as [|l lines]; [reflexivity|].
  intros H. exfalso. apply H. simpl.
  rewrite <- app_assoc. apply in_or_app. right. now left.
Qed.

(** The reader loop on a stream of complete lines: when the text left
    pending after each chunk does not parse, the loop yields the record of
    every line. *)
Lemma read_loop_lines (chunks : list jsstring) :
  forall (carry : jsstring) (lines : list jsstring) (records : list MessageUpdate),
    Forall2 parses_to lines records ->
    newline_free carry ->
    carry ++ concat chunks = terminated lines ->
    (forall k, (1 <= k)%nat ->
       JSON.parse (last (split_newline (carry ++ concat (firstn k chunks))) []) = None) ->
    fst (read_loop chunks carry) = records.
Proof.
  induction chunks as [|value chunks IH]; intros carry lines records Hlines Hcarry Htext Hpend.
  - simpl in *. rewrite app_nil_r in Htext. subst carry.
    apply terminated_newline_free in Hcarry. subst lines.
    now inversion Hlines.
  - destruct value as [|c value].
    + simpl. apply (IH carry lines records); auto.
      intros k Hk. specialize (Hpend (S k) ltac:(lia)). exact Hpend.
    + set (v := c :: value) in *.
      assert (Hfree : Forall newline_free lines) by eauto using parses_to_newline_free.
      change (concat (v :: chunks)) with (v ++ concat chunks) in Htext.
      rewrite app_assoc in Htext.
      destruct (prefix_of_terminated _ _ _ Hfree Htext)
        as (done & remaining & pending & Hsplit & Hcv & Hp & Hrest).
      subst lines.
      apply Forall2_app_inv_l in Hlines
        as (rdone & rremaining & Hdone & Hremaining & ->).
      apply Forall_app in Hfree as [Hfdone _].
      assert (Hfail : JSON.parse pending = None).
      { specialize (Hpend 1%nat ltac:(lia)).
        change (concat (firstn 1 (v :: chunks))) with (v ++ []) in Hpend.
        rewrite app_nil_r, Hcv, (split_newline_last_terminated _ _ Hfdone),
          (split_newline_free _ Hp) in Hpend. exact Hpend. }
      change (read_loop (v :: chunks) carry)
        with (let r := parseMessageUpdates (carry ++ v) in
              let '(yielded, final) := read_loop chunks (remainingText r) in
              (messageUpdates r ++ yielded, final)).
      rewrite Hcv, (parseMessageUpdates_lines _ _ _ Hdone Hp Hfail). simpl.
      specialize (IH pending remaining rremaining Hremaining Hp Hrest).
      destruct (read_loop chunks pending) as [yielded final]. simpl in *.
      rewrite IH; [reflexivity|].
      intros k Hk. specialize (Hpend (S k) ltac:(lia)).
      change (concat (firstn (S k) (v :: chunks)))
        with (v ++ concat (firstn k chunks)) in Hpend.
      rewrite app_assoc, Hcv, <- app_assoc,
        (split_newline_last_terminated _ _ Hfdone) in Hpend. exact Hpend.
Qed.

(** X1: where the framing does hold.  On a stream of complete lines cut so
    that the text left pending after each chunk does not parse as JSON, the
    decoder yields the record of every line, as it does on the stream in one
    chunk. *)
Theorem framing_when_pending_never_parses
    (lines : list jsstring) (records : list MessageUpdate) (chunks : list jsstring) :
  Forall2 parses_to lines records ->
  concat chunks = terminated lines ->
  (forall k, JSON.parse (last (split_newline (concat (firstn k chunks))) []) = None) ->
  endpointStreamToIterator chunks = records
  /\ endpointStreamToIterator [terminated lines] = records.
Proof.
  intros Hlines Htext Hpend. split.
  - apply (read_loop_lines chunks [] lines records); auto.
    + intros [].
    + intros k _. apply Hpend.
  - apply (read_loop_lines [terminated lines] [] lines records); auto.
    + intros [].
    + simpl. now rewrite app_nil_r.
    + intros k Hk. destruct k as [|k]; [lia|]. simpl.
      rewrite firstn_nil. simpl. rewrite app_nil_r.
      rewrite <- (app_nil_r (terminated lines)).
      rewrite split_newline_last_terminated by eauto using parses_to_newline_free.
      reflexivity.
Qed.

(** The scenario cut inside its second record. *)
Lemma framing_when_pending_never_parses_witness :
  endpointStreamToIterator [hel_line ++ NEWLINE :: lo_head; lo_tail ++ [NEWLINE]]
  = [hel_record; lo_record]
  /\ endpointStreamToIterator [terminated [hel_line; lo_line]]
     = [hel_record; lo_record].
Proof.
  apply (framing_when_pending_never_parses [hel_line; lo_line]).
  - repeat constructor; apply newline_free_forallb; reflexivity.
  - reflexivity.
  - intros [|[|[|k]]]; reflexivity.
Defined.

(** C1: the spec's end-to-end stream, cut just before the newline that ends
    its first record.  The decoder emits the first record at once, finds an
    empty first segment in the second chunk, returns there and loses the
    second record; the same text in one chunk gives both records. *)
Theorem framing_lost_on_split_before_newline :
  endpointStreamToIterator [hel_line; NEWLINE :: lo_line ++ [NEWLINE]]
  = [hel_record]
  /\ endpointStreamToIterator [hel_line ++ NEWLINE :: lo_line ++ [NEWLINE]]
     = [hel_record; lo_record].
Proof. split; vm_compute; reflexivity. Qed.







(** Where the end of the stream drops a partial line only: whatever the
    chunks before, when the last chunk completes some lines, all of which
    parse, and leaves a partial line that does not parse, the decoder yields
    what it had yielded and the records of those lines, holds the partial
    line as carry, and yields nothing for it when the reader reports the
    end. *)
Theorem carry_discarded_on_end
    (chunks : list jsstring) (yielded : list MessageUpdate) (carry : jsstring)
    (value : jsstring) (lines : list jsstring) (records : list MessageUpdate)
    (partial : jsstring) :
  read_loop chunks [] = (yielded, carry) ->
  value <> [] ->
  carry ++ value = terminated lines ++ partial ->
  Forall2 parses_to lines records ->
  newline_free partial -> JSON.parse partial = None ->
  read_loop (chunks ++ [value]) [] = (yielded ++ records, partial)
  /\ endpointStreamToIterator (chunks ++ [value]) = yielded ++ records.
Proof.
  intros Hrun Hvalue Htext Hlines Hfree Hfail.
  assert (Hloop : read_loop (chunks ++ [value]) [] = (yielded ++ records, partial)).
  { rewrite read_loop_app, Hrun. simpl.
    destruct value as [|c value]; [congruence|].
    rewrite Htext, (parseMessageUpdates_lines _ _ _ Hlines Hfree Hfail). simpl.
    now rewrite app_nil_r. }
  split; [exact Hloop|].
  unfold endpointStreamToIterator. now rewrite Hloop.
Qed.

(** The scenario cut inside its second record, with a cut third record at
    the end of the stream. *)
Lemma carry_discarded_on_end_witness :
  read_loop ([hel_line ++ NEWLINE :: lo_head] ++
             [lo_tail ++ NEWLINE :: cut_line]) []
  = ([hel_record] ++ [lo_record], cut_line)
  /\ endpointStreamToIterator
       ([hel_line ++ NEWLINE :: lo_head] ++
        [lo_tail ++ NEWLINE :: cut_line])
     = [hel_record] ++ [lo_record].
Proof.
  apply (carry_discarded_on_end _ [hel_record] lo_head
           _ [lo_line] [lo_record] cut_line).
  - reflexivity.
  - discriminate.
  - reflexivity.
  - repeat constructor; apply newline_free_forallb; reflexivity.
  - apply newline_free_forallb; reflexivity.
  - reflexivity.
Defined.

(** The carry is dropped at the end even when it would parse: after a
    malformed line the last segment is held back, and the end of the stream
    does not look at it again. *)
Example parseable_carry_discarded_on_end :
  read_loop [js "oops" ++ NEWLINE :: hel_line] [] = ([], hel_line)
  /\ JSON.parse hel_line = Some hel_record
  /\ endpointStreamToIterator [js "oops" ++ NEWLINE :: hel_line] = [].
Proof. repeat split. Qed.

(** C8: a stream of two complete records and a dangling partial line,
    delivered in two chunks, the first of which ends just before the
    newline of the first record.  The second chunk begins with an empty
    segment, at which [parseMessageUpdates] returns: the second record,
    complete and parseable, is not yielded, and the partial line is held
    as carry and dropped at the end.  The same text in one chunk yields both
    records and omits the partial line. *)
Theorem completed_record_lost_before_end :
  read_loop [hel_line; NEWLINE :: lo_line ++ NEWLINE :: cut_line] []
  = ([hel_record], cut_line)
  /\ JSON.parse lo_line = Some lo_record
  /\ JSON.parse cut_line = None
  /\ endpointStreamToIterator [hel_line; NEWLINE :: lo_line ++ NEWLINE :: cut_line]
     = [hel_record]
  /\ endpointStreamToIterator [hel_line ++ NEWLINE :: lo_line ++ NEWLINE :: cut_line]
     = [hel_record; lo_record].
Proof. repeat split; vm_compute; reflexivity. Qed.

End DecoderProperties.

(** * Text and other updates of a sequence *)

Section UpdateProperties.

Context {Payload : Type}.
#[local] Abbreviation Update := (MessageUpdate Payload).

Lemma stream_text_app (a b : list Update) :
  stream_text (a ++ b) = stream_text a ++ stream_text b.
Proof.
  induction a as [|[token|p] a IH]; simpl; [reflexivity | | exact IH].
  now rewrite IH, app_assoc.
Qed.

Lemma non_stream_app (a b : list Update) :
  non_stream (a ++ b) = non_stream a ++ non_stream b.
Proof.
  induction a as [|[token|p] a IH]; simpl; [reflexivity | exact IH |].
  now rewrite IH.
Qed.

End UpdateProperties.

(** * Properties of the word coalescer *)

Section CoalescerProperties.

Import Coalescer.
Context {Payload : Type}.
#[local] Abbreviation Update := (MessageUpdate Payload).

(** C6: the fragments of the example in the function's own comment,
    followed by the end of the input.  The last two are buffered as one
    group, and the final loop yields the buffered updates one by one instead
    of joining them as the flush before a non-stream update does. *)
Theorem final_flush_not_coalesced :
  streamMessageUpdatesToFullWords (Payload := Payload)
    [Stream (js "what"); Stream (js " don"); Stream (js "'t")]
  = [Stream (js "what"); Stream (js " don"); Stream (js "'t")].
Proof. reflexivity. Qed.

(** The same group is joined when a non-stream update follows it. *)
Example flush_before_non_stream_coalesces (payload : Payload) :
  streamMessageUpdatesToFullWords
    [Stream (js "what"); Stream (js " don"); Stream (js "'t"); NonStream payload]
  = [Stream (js "what"); Stream (js " don't"); NonStream payload].
Proof. reflexivity. Qed.

Lemma firstn_add {A} (a b : nat) (l : list A) :
  firstn (a + b) l = firstn a l ++ firstn b (skipn a l).
Proof.
  revert l; induction a as [|a IH]; intros l; [reflexivity|].
  destruct l as [|x l]; simpl.
  - now rewrite firstn_nil.
  - now rewrite IH.
Qed.

Lemma stream_text_tokens (tokens : list jsstring) :
  stream_text (map (@Stream Payload) tokens) = concat tokens.
Proof. induction tokens as [|t tokens IH]; simpl; [reflexivity | now rewrite IH]. Qed.

(** The inner loop yields the fragments between the index it entered with
    and the index it leaves, in order. *)
Lemma scan_text (steps : nat) (buffer : list jsstring) :
  forall (i lastIndexEmitted : nat) (yielded : list Update) (final : nat),
    scan steps buffer i lastIndexEmitted = (yielded, final) ->
    (lastIndexEmitted <= i)%nat ->
    (lastIndexEmitted <= final)%nat
    /\ stream_text yielded
       = concat (firstn (final - lastIndexEmitted) (skipn lastIndexEmitted buffer)).
Proof.
  induction steps as [|steps IH]; intros i l yielded final Hscan Hle; simpl in Hscan.
  - injection Hscan as <- <-. rewrite Nat.sub_diag. auto.
  - destruct (_ && _).
    + apply (IH (S i)); [assumption | lia].
    + destruct (scan steps buffer (S i) i) as [y f] eqn:Hrest.
      injection Hscan as <- <-.
      destruct (IH (S i) i y f Hrest ltac:(lia)) as [Hif Hy].
      split; [lia|]. simpl. rewrite Hy. unfold join_slice.
      replace (f - l)%nat with ((i - l) + (f - i))%nat by lia.
      rewrite firstn_add, concat_app, skipn_skipn.
      now replace (i - l + l)%nat with i by lia.
Qed.

(** The coalescer keeps the text: what it yields spells the buffered
    fragments and then the text of the upstream. *)
Lemma coalesce_text (upstream : list Update) :
  forall buffered : list jsstring,
    stream_text (coalesce upstream buffered)
    = concat buffered ++ stream_text upstream.
Proof.
  induction upstream as [|[token|p] upstream IH]; intros buffered; simpl.
  - now rewrite stream_text_tokens, app_nil_r.
  - destruct (scan _ _ _ _) as [yielded final] eqn:Hscan.
    destruct (scan_text _ _ _ _ _ _ Hscan ltac:(lia)) as [_ Hy].
    rewrite stream_text_app, Hy, IH, Nat.sub_0_r. simpl skipn at 1.
    rewrite app_assoc, <- concat_app, firstn_skipn, concat_app. simpl.
    now rewrite app_nil_r, <- app_assoc.
  - destruct buffered as [|b buffered]; simpl; rewrite IH; simpl; auto.
Qed.

(** Nothing crosses a non-stream update: what is yielded before it is
    fixed by the updates before it and spells their text, and what follows
    is the coalescer run on the rest with an empty buffer. *)
Lemma coalesce_non_stream_separates (before : list Update) (buffered : list jsstring) :
  exists flushed,
    stream_text flushed = concat buffered ++ stream_text before
    /\ forall payload after,
         coalesce (before ++ NonStream payload :: after) buffered
         = flushed ++ NonStream payload :: coalesce after [].
Proof.
  revert buffered; induction before as [|u before IH]; intros buffered.
  - destruct buffered as [|b buffered].
    + exists []. split; reflexivity.
    + exists [Stream (concat (b :: buffered))]. split; [|reflexivity].
      simpl. now rewrite !app_nil_r.
  - destruct u as [token | p]; simpl.
    + destruct (scan _ _ _ _) as [yielded lastIndexEmitted] eqn:Hscan.
      destruct (scan_text _ _ _ _ _ _ Hscan ltac:(lia)) as [_ Hy].
      destruct (IH (skipn lastIndexEmitted (buffered ++ [token])))
        as [flushed [Ht Hf]].
      exists (yielded ++ flushed). split.
      * rewrite stream_text_app, Hy, Ht, Nat.sub_0_r. simpl skipn at 1.
        rewrite app_assoc, <- concat_app, firstn_skipn, concat_app. simpl.
        now rewrite app_nil_r, <- app_assoc.
      * intros payload after. now rewrite Hf, app_assoc.
    + destruct (IH []) as [flushed [Ht Hf]].
      destruct buffered as [|b buffered].
      * exists (NonStream p :: flushed). split; [exact Ht|].
        intros. now rewrite Hf.
      * exists (Stream (concat (b :: buffered)) :: NonStream p :: flushed).
        split; [|intros; now rewrite Hf].
        simpl in *. now rewrite Ht.
Qed.

(** C7: six fragments, each pair of neighbours passing the continuation
    test, then the end of the input.  The first five are yielded as one
    fragment when the sixth arrives, and the sixth at the end: two fragments,
    none made of more than five. *)
Theorem coalescing_cap (f1 f2 f3 f4 f5 f6 : jsstring) :
  endAlphanumeric f1 = true -> beginnningAlphanumeric f2 = true ->
  endAlphanumeric f2 = true -> beginnningAlphanumeric f3 = true ->
  endAlphanumeric f3 = true -> beginnningAlphanumeric f4 = true ->
  endAlphanumeric f4 = true -> beginnningAlphanumeric f5 = true ->
  endAlphanumeric f5 = true -> beginnningAlphanumeric f6 = true ->
  let output :=
    streamMessageUpdatesToFullWords (Payload := Payload)
      [Stream f1; Stream f2; Stream f3; Stream f4; Stream f5; Stream f6] in
  (2 <= List.length output)%nat
  /\ exists groups : list (list jsstring),
       concat groups = [f1; f2; f3; f4; f5; f6]
       /\ Forall (fun group => (1 <= List.length group <= 5)%nat) groups
       /\ output = map (fun group => Stream (concat group)) groups.
Proof.
  intros E1 B2 E2 B3 E3 B4 E4 B5 E5 B6 output.
  assert (Hout : output = [Stream (concat [f1; f2; f3; f4; f5]); Stream (concat [f6])]).
  { subst output. unfold streamMessageUpdatesToFullWords.
    repeat (cbn -[endAlphanumeric beginnningAlphanumeric concat];
            rewrite ?E1, ?B2, ?E2, ?B3, ?E3, ?B4, ?E4, ?B5, ?E5, ?B6).
    unfold join_slice. cbn -[endAlphanumeric beginnningAlphanumeric concat].
    cbn. now rewrite !app_nil_r. }
  rewrite Hout. split; [simpl; lia|].
  exists [[f1; f2; f3; f4; f5]; [f6]].
  split; [reflexivity|]. split; [|reflexivity].
  repeat constructor; simpl; lia.
Qed.

End CoalescerProperties.

(** Six fragments of one word. *)
Lemma coalescing_cap_witness :
  let output :=
    Coalescer.streamMessageUpdatesToFullWords (Payload := nat)
      [Stream (js "un"); Stream (js "be"); Stream (js "liev");
       Stream (js "ab"); Stream (js "l"); Stream (js "y")] in
  (2 <= List.length output)%nat
  /\ exists groups : list (list jsstring),
       concat groups = [js "un"; js "be"; js "liev"; js "ab"; js "l"; js "y"]
       /\ Forall (fun group => (1 <= List.length group <= 5)%nat) groups
       /\ output = map (fun group => Stream (concat group)) groups.
Proof.
  apply (coalescing_cap (Payload := nat)
           (js "un") (js "be") (js "liev") (js "ab") (js "l") (js "y"));
    reflexivity.
Defined.

(** * Properties of the pacing scheduler *)

Section PacerProperties.

Import Pacer.
Context {Payload : Type}.
#[local] Abbreviation Update := (MessageUpdate Payload).
#[local] Abbreviation State := (@Pacer.State Payload).

Lemma offsets_from_app (a b : list Update) n :
  offsets_from n (a ++ b)
  = offsets_from n a ++ offsets_from (n + List.length (stream_text a)) b.
Proof.
  revert n; induction a as [|[token|p] a IH]; intros n; simpl.
  - now rewrite Nat.add_0_r.
  - rewrite IH, length_app. f_equal. f_equal. lia.
  - now rewrite IH.
Qed.

Lemma offsets_from_fst (l : list Update) n :
  map fst (offsets_from n l) = non_stream l.
Proof.
  revert n; induction l as [|[token|p] l IH]; intros n; simpl; auto.
  now rewrite IH.
Qed.

Lemma invariant_initial (input : list Update) :
  invariant input [] [] [] (initial input).
Proof.
  constructor; simpl; auto; try discriminate; constructor.
Qed.

Lemma invariant_produce input consumed matched waiting (st : State) :
  invariant input consumed matched waiting st ->
  exists consumed' waiting',
    invariant input consumed' matched waiting' (produce st).
Proof.
  intros [Hin Htext Hpend Hdone Hne Hret Hoff Hmat Hwait Hwp].
  unfold produce. destruct (upstream st) as [|[token|p] rest] eqn:Hup.
  - exists consumed, waiting. constructor; simpl; auto.
    intros Hc. destruct (Hret Hc) as (_ & Hq & Hp). auto.
  - exists (consumed ++ [Stream token]), waiting. constructor; simpl; auto.
    + now rewrite Hin, <- app_assoc.
    + rewrite stream_text_app, app_assoc, Htext. simpl. now rewrite app_nil_r.
    + intros Hd. specialize (Hdone Hd). discriminate.
    + intros Hc. destruct (Hret Hc) as (Hd & _). specialize (Hdone Hd). discriminate.
    + unfold offsets in *. rewrite offsets_from_app. simpl. now rewrite app_nil_r.
  - exists (consumed ++ [NonStream p]),
           (waiting ++ [(p, List.length (stream_text consumed))]).
    constructor; simpl; auto.
    + now rewrite Hin, <- app_assoc.
    + rewrite stream_text_app. simpl. now rewrite app_nil_r.
    + apply Forall_app; split; [assumption | now constructor].
    + intros Hd. specialize (Hdone Hd). discriminate.
    + intros Hc. destruct (Hret Hc) as (Hd & _). specialize (Hdone Hd). discriminate.
    + unfold offsets in *. rewrite offsets_from_app, Hoff. simpl.
      now rewrite app_assoc.
    + apply Forall_app; split; [assumption|]. constructor; [|constructor].
      simpl. rewrite <- Htext, length_app. lia.
    + rewrite map_app, non_stream_app, Hwp. reflexivity.
Qed.

Lemma firstn_positive {A} (n : nat) (x : A) (l : list A) :
  (1 <= n)%nat -> firstn n (x :: l) <> [].
Proof. destruct n; [lia | discriminate]. Qed.

Lemma budget_positive (b : Z) (n : nat) :
  (0 < b)%Z -> (1 <= n)%nat ->
  (1 <= Z.to_nat (Z.min b (Z.of_nat n)) <= n)%nat.
Proof. lia. Qed.

Lemma invariant_frame input consumed matched (st : State) b :
  pendingNonStreamUpdates st = [] ->
  invariant input consumed matched [] st ->
  invariant input consumed matched [] (frame b st).
Proof.
  intros Hempty [Hin Htext Hpend Hdone Hne Hret Hoff Hmat Hwait Hwp].
  unfold frame. destruct (charQueue st) as [|c q] eqn:Hq.
  - constructor; simpl; auto.
    destruct (iteratorDone st); [auto | discriminate].
  - destruct (0 <? b)%Z eqn:Hb.
    + apply Z.ltb_lt in Hb.
      pose proof (budget_positive b (List.length (c :: q)) Hb ltac:(simpl; lia)) as Hn.
      set (n := Z.to_nat (Z.min b (Z.of_nat (List.length (c :: q))))) in *.
      constructor; simpl; auto; try discriminate.
      * rewrite stream_text_app. simpl.
        rewrite app_nil_r, <- app_assoc, firstn_skipn. exact Htext.
      * apply Forall_app; split; [assumption|]. constructor; [|constructor].
        apply firstn_positive. lia.
      * unfold offsets in *. rewrite offsets_from_app. simpl.
        now rewrite app_nil_r.
    + constructor; simpl; auto; discriminate.
Qed.

Lemma invariant_body input consumed matched waiting (st : State) b :
  invariant input consumed matched waiting st ->
  exists matched' waiting',
    invariant input consumed matched' waiting' (body b st).
Proof.
  intros Hinv. unfold body.
  destruct (pendingNonStreamUpdates st) as [|u rest] eqn:Hp.
  - assert (waiting = []) as ->.
    { destruct Hinv as [_ _ _ _ _ _ _ _ _ Hwp]. rewrite Hp in Hwp.
      now destruct waiting. }
    exists matched, []. now apply invariant_frame.
  - destruct Hinv as [Hin Htext Hpend Hdone Hne Hret Hoff Hmat Hwait Hwp].
    rewrite Hp in *.
    inversion Hpend as [|? ? Hu Hrest]; subst.
    destruct u as [token|p]; [discriminate|]. simpl in Hwp.
    destruct waiting as [|w waiting]; [discriminate|].
    injection Hwp as Hw Hwp.
    inversion Hwait as [|? ? Hwlen Hwait']; subst.
    exists (matched ++ [w]), waiting.
    assert (Htxt : stream_text (yielded st ++ [NonStream (fst w)])
                   = stream_text (yielded st))
      by (rewrite stream_text_app; simpl; apply app_nil_r).
    constructor; simpl; auto; try discriminate.
    + now rewrite Htxt.
    + apply Forall_app; split; [assumption | now repeat constructor].
    + now rewrite <- app_assoc.
    + unfold offsets in *. rewrite offsets_from_app. simpl.
      apply Forall2_app; [assumption|]. constructor; [|constructor].
      split; simpl; [reflexivity | exact Hwlen].
    + now rewrite Htxt.
Qed.

Lemma invariant_resume input consumed matched waiting (st : State) b :
  invariant input consumed matched waiting st ->
  exists matched' waiting',
    invariant input consumed matched' waiting' (resume b st).
Proof.
  intros Hinv. unfold resume. destruct (control st) eqn:Hc.
  - destruct (loop_test st) eqn:Ht; [exact (invariant_body _ _ _ _ _ b Hinv)|].
    exists matched, waiting.
    unfold loop_test in Ht.
    apply orb_false_iff in Ht as [Ht Hp]. apply orb_false_iff in Ht as [Hd Hq].
    apply negb_false_iff in Hd, Hq, Hp. apply Nat.eqb_eq in Hq, Hp.
    apply length_zero_iff_nil in Hq, Hp.
    destruct Hinv. constructor; simpl; auto.
  - exact (invariant_body _ _ _ _ _ b Hinv).
  - now exists matched, waiting.
Qed.

(** Every state a schedule leads to satisfies the invariant. *)
Lemma invariant_run (input : list Update) (schedule : list Event) :
  exists consumed matched waiting,
    invariant input consumed matched waiting (run schedule (initial input)).
Proof.
  unfold run.
  assert (H : forall st consumed matched waiting,
             invariant input consumed matched waiting st ->
             exists consumed' matched' waiting',
               invariant input consumed' matched' waiting' (fold_left step schedule st)).
  { induction schedule as [|e schedule IH]; intros st consumed matched waiting Hinv; simpl.
    - eauto.
    - destruct e as [|b]; simpl.
      + destruct (invariant_produce _ _ _ _ _ Hinv) as (c' & w' & H'). eauto.
      + destruct (invariant_resume _ _ _ _ _ b Hinv) as (m' & w' & H'). eauto. }
  apply (H _ [] [] []), invariant_initial.
Qed.

Lemma run_app (a b : list Event) (st : State) :
  run (a ++ b) st = run b (run a st).
Proof. apply fold_left_app. Qed.

Lemma resume_keeps_producer b (st : State) :
  upstream (resume b st) = upstream st
  /\ iteratorDone (resume b st) = iteratorDone st.
Proof.
  unfold resume, body, frame.
  destruct (control st); [destruct (loop_test st)| |]; simpl; auto;
    destruct (pendingNonStreamUpdates st); simpl; auto;
    destruct (charQueue st); simpl; auto;
    destruct (0 <? b)%Z; simpl; auto.
Qed.

Lemma run_returned (schedule : list Event) (st : State) :
  control st = Returned -> control (run schedule st) = Returned.
Proof.
  revert st; induction schedule as [|e schedule IH]; intros st Hc; [exact Hc|].
  apply IH. destruct e as [|b]; simpl.
  - unfold produce. destruct (upstream st) as [|[token|p] rest]; exact Hc.
  - unfold resume. now rewrite Hc.
Qed.

(** With the producer finished, a resumed consumer leaves its loop or has
    less to yield; with a positive budget, strictly less. *)
Lemma resume_progress b (st : State) :
  iteratorDone st = true ->
  control (resume b st) = Returned
  \/ (backlog (resume b st) + (if (0 <? b)%Z then 1 else 0) <= backlog st)%nat.
Proof.
  intros Hd.
  assert (Hbody : control (body b st) = Returned
                  \/ (backlog (body b st) + (if (0 <? b)%Z then 1 else 0)
                      <= backlog st)%nat).
  { unfold body, frame, backlog.
    destruct (pendingNonStreamUpdates st) as [|u rest] eqn:Hp.
    - destruct (charQueue st) as [|c q] eqn:Hq.
      + left. cbn [control]. now rewrite Hd.
      + right. destruct (0 <? b)%Z eqn:Hb;
          cbn [charQueue pendingNonStreamUpdates]; rewrite ?Hp; [|lia].
        apply Z.ltb_lt in Hb.
        pose proof (budget_positive b (List.length (c :: q)) Hb ltac:(simpl; lia)) as Hn.
        rewrite length_skipn. lia.
    - right. cbn [charQueue pendingNonStreamUpdates List.length].
      destruct (0 <? b)%Z; lia. }
  unfold resume. destruct (control st) eqn:Hc.
  - destruct (loop_test st); [exact Hbody | now left].
  - exact Hbody.
  - now left.
Qed.

Lemma drained (schedule : list Event) (st : State) :
  iteratorDone st = true -> upstream st = [] ->
  (backlog st < positive_resumes schedule)%nat ->
  control (run schedule st) = Returned.
Proof.
  revert st; induction schedule as [|e schedule IH]; intros st Hd Hup Hlt;
    [simpl in Hlt; lia|].
  destruct e as [|b].
  - simpl in *. apply IH; unfold produce; rewrite Hup; simpl; auto.
  - change (run (Resume b :: schedule) st) with (run schedule (resume b st)).
    cbn [positive_resumes] in Hlt.
    destruct (resume_keeps_producer b st) as [Hu' Hd'].
    destruct (resume_progress b st Hd) as [Hret | Hless].
    + now apply run_returned.
    + apply IH; [congruence | congruence |].
      destruct (0 <? b)%Z; lia.
Qed.

Lemma producer_stays_finished (schedule : list Event) (st : State) :
  iteratorDone st = true -> upstream st = [] ->
  iteratorDone (run schedule st) = true /\ upstream (run schedule st) = [].
Proof.
  revert st; induction schedule as [|e schedule IH]; intros st Hd Hup; [auto|].
  destruct e as [|b]; simpl.
  - apply IH; unfold produce; rewrite Hup; simpl; auto.
  - destruct (resume_keeps_producer b st) as [Hu' Hd']. apply IH; congruence.
Qed.

(** The producer is through once it has had a turn for each update of the
    upstream and one more. *)
Lemma producer_finishes (schedule : list Event) (st : State) :
  (List.length (upstream st) < produces schedule)%nat ->
  iteratorDone (run schedule st) = true /\ upstream (run schedule st) = [].
Proof.
  revert st; induction schedule as [|e schedule IH]; intros st Hlt;
    [simpl in Hlt; lia|].
  destruct e as [|b]; simpl in *.
  - destruct (upstream st) as [|u rest] eqn:Hup.
    + apply producer_stays_finished; unfold produce; rewrite Hup; reflexivity.
    + apply IH. unfold produce. rewrite Hup.
      destruct u; simpl in *; lia.
  - apply IH. destruct (resume_keeps_producer b st) as [-> _]. exact Hlt.
Qed.

(** What holds of the pacer whatever the arithmetic of its frames gives:
    whatever the schedule and the budgets of the frames, the text
    yielded, the characters queued and the text of the updates not yet taken
    from the upstream make up the text of the input, in this order.  The
    consumer loop is left only with the upstream taken whole and both
    queues empty, the whole text then being yielded.  And it is left, once
    the producer has had its turns, as soon as the frames with a positive
    budget outnumber what is queued. *)
Theorem pacing_completeness (input : list Update) (schedule : list Event) :
  let st := run schedule (initial input) in
  stream_text input
  = stream_text (yielded st) ++ charQueue st ++ stream_text (upstream st)
  /\ (control st = Returned ->
      iteratorDone st = true /\ upstream st = []
      /\ charQueue st = [] /\ pendingNonStreamUpdates st = []
      /\ stream_text (yielded st) = stream_text input)
  /\ (forall more : list Event,
        (List.length input < produces schedule)%nat ->
        (backlog st < positive_resumes more)%nat ->
        control (run (schedule ++ more) (initial input)) = Returned
        /\ stream_text (smoothAsyncIterator input (schedule ++ more))
           = stream_text input).
Proof.
  assert (Htext : forall sched,
             stream_text input
             = stream_text (yielded (run sched (initial input)))
               ++ charQueue (run sched (initial input))
               ++ stream_text (upstream (run sched (initial input)))).
  { intros sched.
    destruct (invariant_run input sched) as (consumed & matched & waiting & Hinv).
    destruct Hinv as [Hin Ht _ _ _ _ _ _ _ _].
    rewrite Hin at 1. now rewrite stream_text_app, <- Ht, <- app_assoc. }
  assert (Hexit : forall sched,
             control (run sched (initial input)) = Returned ->
             iteratorDone (run sched (initial input)) = true
             /\ upstream (run sched (initial input)) = []
             /\ charQueue (run sched (initial input)) = []
             /\ pendingNonStreamUpdates (run sched (initial input)) = []
             /\ stream_text (yielded (run sched (initial input))) = stream_text input).
  { intros sched Hc.
    destruct (invariant_run input sched) as (consumed & matched & waiting & Hinv).
    destruct (inv_returned _ _ _ _ _ Hinv Hc) as (Hd & Hq & Hp).
    pose proof (inv_done _ _ _ _ _ Hinv Hd) as Hup.
    repeat split; auto.
    rewrite (Htext sched), Hq, Hup. simpl. now rewrite app_nil_r. }
  intros st. split; [apply Htext|]. split; [apply Hexit|].
  intros more Hturns Hframes.
  assert (Hret : control (run (schedule ++ more) (initial input)) = Returned).
  { rewrite run_app.
    destruct (producer_finishes schedule (initial input) Hturns) as [Hd Hup].
    now apply drained. }
  split; [exact Hret|]. now apply Hexit.
Qed.

(** C5, amended: the other updates are yielded in the order of the input,
    each once, and none has more text yielded before it than came before it
    in the input; the text yielded being a prefix of the text of the input,
    every text that followed an update in the input is yielded after it.
    Text that came before it and is still queued is yielded after it. *)
Theorem non_stream_order (input : list Update) (schedule : list Event) :
  let st := run schedule (initial input) in
  exists matched rest,
    offsets input = matched ++ rest
    /\ Forall2 keeps_place (offsets (smoothAsyncIterator input schedule)) matched
    /\ (control st = Returned -> rest = [])
    /\ exists later,
         stream_text input
         = stream_text (smoothAsyncIterator input schedule) ++ later.
Proof.
  intros st. unfold smoothAsyncIterator. fold st.
  destruct (invariant_run input schedule) as (consumed & matched & waiting & Hinv).
  fold st in Hinv.
  exists matched,
    (waiting ++ offsets_from (0 + List.length (stream_text consumed)) (upstream st)).
  split; [|split; [|split]].
  - rewrite (inv_input _ _ _ _ _ Hinv) at 1. unfold offsets.
    rewrite offsets_from_app. fold (offsets consumed).
    now rewrite (inv_offsets _ _ _ _ _ Hinv), app_assoc.
  - exact (inv_matched _ _ _ _ _ Hinv).
  - intros Hc.
    destruct (inv_returned _ _ _ _ _ Hinv Hc) as (Hd & Hq & Hp).
    rewrite (inv_done _ _ _ _ _ Hinv Hd).
    pose proof (inv_waiting_pending _ _ _ _ _ Hinv) as Hw.
    rewrite Hp in Hw. destruct waiting; [reflexivity | discriminate].
  - exists (charQueue st ++ stream_text (upstream st)).
    rewrite (inv_input _ _ _ _ _ Hinv) at 1.
    now rewrite stream_text_app, <- (inv_text _ _ _ _ _ Hinv), <- app_assoc.
Qed.

(** C10: no schedule makes the scheduler yield a [Stream] update with an
    empty token. *)
Theorem paced_tokens_nonempty (input : list Update) (schedule : list Event) :
  Forall nonempty_stream (smoothAsyncIterator input schedule).
Proof.
  destruct (invariant_run input schedule) as (consumed & matched & waiting & Hinv).
  exact (inv_nonempty _ _ _ _ _ Hinv).
Qed.

End PacerProperties.

(** The scheduler on a short conversation: the consumer starts and waits,
    a fragment arrives, the first frame after the wait has no budget yet,
    the other updates arrive while it sleeps, and the frames that follow
    drain the queues. *)
Lemma pacing_completeness_witness :
  let input : list (MessageUpdate nat) :=
    [Stream (js "Hi"); NonStream 1%nat; Stream (js "!")] in
  let schedule :=
    [Pacer.Resume 0; Pacer.Produce; Pacer.Resume 0; Pacer.Produce;
     Pacer.Produce; Pacer.Produce] in
  let more :=
    [Pacer.Resume 1; Pacer.Resume 1; Pacer.Resume 0; Pacer.Resume 1;
     Pacer.Resume 5; Pacer.Resume 1] in
  (Pacer.control (Pacer.run (schedule ++ more) (Pacer.initial input))
   = Pacer.Returned
   /\ stream_text (Pacer.smoothAsyncIterator input (schedule ++ more))
      = stream_text input)
  /\ (Pacer.iteratorDone (Pacer.run (schedule ++ more) (Pacer.initial input)) = true
      /\ Pacer.upstream (Pacer.run (schedule ++ more) (Pacer.initial input)) = []
      /\ Pacer.charQueue (Pacer.run (schedule ++ more) (Pacer.initial input)) = []
      /\ Pacer.pendingNonStreamUpdates
           (Pacer.run (schedule ++ more) (Pacer.initial input)) = []
      /\ stream_text (Pacer.yielded (Pacer.run (schedule ++ more) (Pacer.initial input)))
         = stream_text input).
Proof.
  intros input schedule more. split.
  - apply (proj2 (proj2 (pacing_completeness input schedule)) more).
    + simpl. lia.
    + unfold Pacer.backlog. simpl. lia.
  - apply (proj1 (proj2 (pacing_completeness input (schedule ++ more)))).
    reflexivity.
Defined.

(** C5, as stated, fails: an update that arrives while text is queued is
    yielded at the next resumption, ahead of the queued text that came
    before it in the input. *)
Lemma non_stream_overtakes_queued_text :
  let input : list (MessageUpdate nat) :=
    [Stream (js "hello"); NonStream 7%nat] in
  let schedule :=
    [Pacer.Resume 0; Pacer.Produce; Pacer.Resume 0; Pacer.Produce;
     Pacer.Resume 0; Pacer.Resume 0; Pacer.Resume 0; Pacer.Resume 1] in
  Pacer.smoothAsyncIterator input schedule = [NonStream 7%nat; Stream (js "h")]
  /\ Pacer.offsets input = [(7%nat, 5%nat)]
  /\ Pacer.offsets (Pacer.smoothAsyncIterator input schedule) = [(7%nat, 0%nat)]
  /\ ~ (exists rest,
          Pacer.offsets input
          = Pacer.offsets (Pacer.smoothAsyncIterator input schedule) ++ rest).
Proof.
  intros input schedule. repeat split.
  intros [rest Hrest]. vm_compute in Hrest. discriminate.
Qed.

(** A conversation with two other updates, run until the loop is left. *)
Lemma non_stream_order_witness :
  let input : list (MessageUpdate nat) :=
    [Stream (js "Hi"); NonStream 1%nat; Stream (js "!"); NonStream 2%nat] in
  let schedule :=
    [Pacer.Resume 0; Pacer.Produce; Pacer.Resume 0; Pacer.Produce;
     Pacer.Produce; Pacer.Produce; Pacer.Produce; Pacer.Resume 1;
     Pacer.Resume 1; Pacer.Resume 5; Pacer.Resume 1] in
  Pacer.control (Pacer.run schedule (Pacer.initial input)) = Pacer.Returned
  /\ exists matched,
       Pacer.offsets input = matched
       /\ Forall2 Pacer.keeps_place
            (Pacer.offsets (Pacer.smoothAsyncIterator input schedule)) matched
       /\ exists later,
            stream_text input
            = stream_text (Pacer.smoothAsyncIterator input schedule) ++ later.
Proof.
  intros input schedule.
  assert (Hret : Pacer.control (Pacer.run schedule (Pacer.initial input))
                 = Pacer.Returned) by reflexivity.
  split; [exact Hret|].
  destruct (non_stream_order input schedule) as (matched & rest & Hoff & Hm & Hr & Ht).
  exists matched. rewrite (Hr Hret), app_nil_r in Hoff. auto.
Defined.

(** * Properties of the transport checks *)

Section FetchProperties.

Import Fetch.

(** C9: a response with status 500 whose body is the JSON object without
    members.  The body parses, so the [catch] that holds the fallback does
    not run; [obj.message] is [undefined] and the function throws
    [Error(undefined)], whose message is empty: neither a message of the
    body nor the fallback [Request failed with status code 500: Internal
    Server Error]. *)
Lemma missing_message_gives_empty_error :
  let response :=
    {| status := 500; statusText := js "Internal Server Error";
       body := Some (js "{}") |} in
  json response = Some (JSON.JObject [])
  /\ fetchMessageUpdates response (js "true") = Throws (Text [])
  /\ fallback_message response
     = js "Request failed with status code 500: Internal Server Error"
  /\ fetchMessageUpdates response (js "true")
     <> Throws (Text (fallback_message response)).
Proof. intros response. repeat split. discriminate. Qed.

(** Where the transport checks do as the spec says: the function throws
    exactly when the status is not in 200-299 or the body is absent.
    Outside 200-299 the message of the error is the [message] string of the
    body parsed as JSON, and the fallback when the body does not parse as
    JSON or is [null]; with a status in 200-299 and no body the message is
    [Body not defined]. *)
Theorem transport_failures (response : Response) (smooth : jsstring) :
  ((exists message, fetchMessageUpdates response smooth = Throws message)
   <-> (ok response = false \/ body response = None))
  /\ (ok response = false ->
      (forall members text,
          json response = Some (JSON.JObject members) ->
          JSON.lookup (js "message") members = Some (JSON.JString text) ->
          fetchMessageUpdates response smooth = Throws (Text text))
      /\ (json response = None \/ json response = Some JSON.JNull ->
          fetchMessageUpdates response smooth
          = Throws (Text (fallback_message response))))
  /\ (ok response = true -> body response = None ->
      fetchMessageUpdates response smooth = Throws (Text (js "Body not defined"))).
Proof.
  unfold fetchMessageUpdates, errorMessage.
  split; [|split].
  - split.
    + intros [message H]. destruct (ok response); [|now left].
      destruct (body response); [|now right].
      simpl in H. destruct (negb _); discriminate.
    + intros [Hok | Hbody].
      * rewrite Hok. simpl. eauto.
      * destruct (ok response); simpl; [|eauto]. rewrite Hbody. eauto.
  - intros Hok. rewrite Hok. simpl. split.
    + intros members text -> Hl. simpl. now rewrite Hl.
    + intros [-> | ->]; reflexivity.
  - intros Hok Hbody. now rewrite Hok, Hbody.
Qed.

(** A refusal with a message, a gateway error page, and a success without
    body. *)
Lemma transport_failures_witness :
  let refused :=
    {| status := 404; statusText := js "Not Found";
       body := Some (js "{" ++ quoted "message" ++ js ":"
                    ++ quoted "Conversation not found" ++ js "}") |} in
  let broken :=
    {| status := 502; statusText := js "Bad Gateway";
       body := Some (js "<html>Bad Gateway</html>") |} in
  let empty := {| status := 200; statusText := js "OK"; body := None |} in
  fetchMessageUpdates refused (js "true")
  = Throws (Text (js "Conversation not found"))
  /\ fetchMessageUpdates broken (js "true")
     = Throws (Text (js "Request failed with status code 502: Bad Gateway"))
  /\ fetchMessageUpdates empty (js "true") = Throws (Text (js "Body not defined"))
  /\ exists message, fetchMessageUpdates empty (js "false") = Throws message.
Proof.
  intros refused broken empty. split; [|split; [|split]].
  - apply (proj1 (proj1 (proj2 (transport_failures refused (js "true"))) eq_refl)
             [(js "message", JSON.JString (js "Conversation not found"))]);
      reflexivity.
  - apply (proj2 (proj1 (proj2 (transport_failures broken (js "true"))) eq_refl)).
    left. reflexivity.
  - apply (proj2 (proj2 (transport_failures empty (js "true")))); reflexivity.
  - apply (proj2 (proj1 (transport_failures empty (js "false")))).
    right. reflexivity.
Defined.

End FetchProperties.

(** * Further properties of the chunk decoder *)

Section DecoderCoverage.

Import Decoder.

Lemma split_newline_segments_free (s : jsstring) :
  Forall newline_free (split_newline s).
Proof.
  induction s as [|c s IH]; simpl.
  - constructor; [intros [] | constructor].
  - destruct (c =? NEWLINE) eqn:E.
    + constructor; [intros [] | exact IH].
    + destruct (split_newline s) as [|h t]; [repeat constructor|].
      * apply newline_free_cons. split; [now apply N.eqb_neq | intros []].
      * inversion IH; subst. constructor; [|assumption].
        apply newline_free_cons. split; [now apply N.eqb_neq | assumption].
Qed.

Lemma last_Forall {A} (P : A -> Prop) (l : list A) (d : A) :
  Forall P l -> P d -> P (last l d).
Proof.
  induction 1 as [|x l Hx Hl IH]; intros Hd; [exact Hd|].
  destruct l; [exact Hx | now apply IH].
Qed.

Lemma parse_inputs_newline_free inputs lastInput acc :
  newline_free lastInput ->
  newline_free (remainingText (parse_inputs inputs lastInput acc)).
Proof.
  intros Hl. revert acc; induction inputs as [|i rest IH]; intros acc; simpl.
  - intros [].
  - destruct (JSON.parse i); [apply IH | exact Hl].
Qed.

Lemma remainingText_newline_free (value : jsstring) :
  newline_free (remainingText (parseMessageUpdates value)).
Proof.
  apply parse_inputs_newline_free, last_Forall;
    [apply split_newline_segments_free | intros []].
Qed.

(** X4: the text held back between two chunks never holds a newline: it
    is the beginning of one line at most. *)
Theorem carry_is_one_line (chunks : list jsstring) :
  newline_free (snd (read_loop chunks [])).
Proof.
  assert (H : forall prevChunk,
             newline_free prevChunk -> newline_free (snd (read_loop chunks prevChunk))).
  { induction chunks as [|value chunks IH]; intros prevChunk Hp; [exact Hp|].
    destruct value as [|c value]; [now apply IH|].
    change (read_loop ((c :: value) :: chunks) prevChunk)
      with (let r := parseMessageUpdates (prevChunk ++ c :: value) in
            let '(yielded, final) := read_loop chunks (remainingText r) in
            (messageUpdates r ++ yielded, final)).
    cbv zeta.
    specialize (IH _ (remainingText_newline_free (prevChunk ++ c :: value))).
    destruct (read_loop chunks _) as [yielded final]. exact IH. }
  apply H. intros [].
Qed.

(** X3: empty chunks change nothing: the decoder yields the same records,
    and is left with the same carry, as on the chunks that are not empty. *)
Theorem empty_chunks_ignored (chunks : list jsstring) (prevChunk : jsstring) :
  read_loop chunks prevChunk
  = read_loop (filter (fun chunk => negb (List.length chunk =? 0)%nat) chunks)
      prevChunk.
Proof.
  revert prevChunk; induction chunks as [|value chunks IH]; intros prevChunk;
    [reflexivity|].
  destruct value as [|c value]; [exact (IH prevChunk)|].
  change (filter _ ((c :: value) :: chunks))
    with ((c :: value)
          :: filter (fun chunk => negb (List.length chunk =? 0)%nat) chunks).
  change (read_loop ((c :: value) :: ?l) prevChunk)
    with (let r := parseMessageUpdates (prevChunk ++ c :: value) in
          let '(yielded, final) := read_loop l (remainingText r) in
          (messageUpdates r ++ yielded, final)).
  cbv zeta. now rewrite IH.
Qed.

Lemma terminated_app (a b : list jsstring) :
  terminated (a ++ b) = terminated a ++ terminated b.
Proof. apply flat_map_app. Qed.

Lemma terminated_concat (groups : list (list jsstring)) :
  concat (map terminated groups) = terminated (concat groups).
Proof.
  induction groups as [|g groups IH]; simpl; [reflexivity|].
  now rewrite IH, terminated_app.
Qed.

(** X2: chunks cut at the ends of lines.  When every chunk is made of whole
    lines, each with its newline, the decoder yields the record of every
    line, in order. *)
Theorem whole_line_chunks_decoded
    (groups : list (list jsstring)) (records : list MessageUpdate) :
  Forall2 parses_to (concat groups) records ->
  endpointStreamToIterator (map terminated groups) = records.
Proof.
  intros Hlines.
  apply (read_loop_lines _ [] (concat groups) records); auto.
  - intros [].
  - simpl. apply terminated_concat.
  - intros k _. simpl.
    rewrite firstn_map, terminated_concat.
    assert (Hfree : Forall newline_free (concat (firstn k groups))).
    { pose proof (parses_to_newline_free _ _ Hlines) as Hall.
      rewrite <- (firstn_skipn k groups), concat_app in Hall.
      now apply Forall_app in Hall. }
    rewrite <- (app_nil_r (terminated _)).
    now rewrite (split_newline_last_terminated _ _ Hfree).
Qed.

(** Two chunks, the first of two lines. *)
Lemma whole_line_chunks_decoded_witness :
  endpointStreamToIterator (map terminated [[hel_line; lo_line]; [hel_line]])
  = [hel_record; lo_record; hel_record].
Proof.
  apply (whole_line_chunks_decoded [[hel_line; lo_line]; [hel_line]]).
  repeat constructor; apply newline_free_forallb; reflexivity.
Defined.

End DecoderCoverage.

(** * Further properties of the word coalescer *)

Section CoalescerCoverage.

Import Coalescer Grouping.
Context {Payload : Type}.
#[local] Abbreviation Update := (MessageUpdate Payload).
#[local] Abbreviation Item := (@Grouping.Item Payload).

Lemma scan_non_stream (steps : nat) (buffer : list jsstring) :
  forall (i lastIndexEmitted : nat),
    non_stream (fst (scan (Payload := Payload) steps buffer i lastIndexEmitted)) = [].
Proof.
  induction steps as [|steps IH]; intros i l; simpl; [reflexivity|].
  destruct (_ && _); [apply IH|].
  specialize (IH (S i) i). destruct (scan steps buffer (S i) i). exact IH.
Qed.

Lemma non_stream_tokens (tokens : list jsstring) :
  non_stream (map (@Stream Payload) tokens) = [].
Proof. induction tokens; simpl; auto. Qed.

Lemma coalesce_non_stream (upstream : list Update) :
  forall buffered : list jsstring,
    non_stream (coalesce upstream buffered) = non_stream upstream.
Proof.
  induction upstream as [|[token|p] upstream IH]; intros buffered; simpl.
  - apply non_stream_tokens.
  - pose proof (scan_non_stream (List.length (buffered ++ [token]) - 1)
                  (buffered ++ [token]) 1 0) as Hs.
    destruct (scan _ _ _ _) as [yielded final]. simpl in Hs.
    now rewrite non_stream_app, Hs, IH.
  - destruct buffered; simpl; now rewrite IH.
Qed.

(** X5: the coalescer changes the cut of the text and nothing else: the
    [Stream] tokens it yields spell the text of the upstream, and the other
    updates come out as they went in, in their order. *)
Theorem coalescer_keeps_content (upstream : list Update) :
  stream_text (streamMessageUpdatesToFullWords upstream) = stream_text upstream
  /\ non_stream (streamMessageUpdatesToFullWords upstream) = non_stream upstream.
Proof.
  unfold streamMessageUpdatesToFullWords. split.
  - now rewrite coalesce_text.
  - apply coalesce_non_stream.
Qed.

(** X6: a non-stream update is a barrier.  What is yielded before it is
    fixed by the updates before it, spells their text and holds their other
    updates; what is yielded after it is what the coalescer yields on the
    rest of the upstream alone. *)
Theorem coalescer_never_merges_across (before : list Update) (payload : Payload) :
  exists flushed,
    stream_text flushed = stream_text before
    /\ non_stream flushed = non_stream before
    /\ forall after,
         streamMessageUpdatesToFullWords (before ++ NonStream payload :: after)
         = flushed ++ NonStream payload :: streamMessageUpdatesToFullWords after.
Proof.
  unfold streamMessageUpdatesToFullWords.
  destruct (coalesce_non_stream_separates before []) as [flushed [Ht Hf]].
  exists flushed. split; [exact Ht|]. split; [|intros after; apply Hf].
  pose proof (coalesce_non_stream (before ++ [NonStream payload]) []) as Hn.
  rewrite (Hf payload []), !non_stream_app in Hn. simpl in Hn.
  now apply app_inv_tail in Hn.
Qed.

Lemma scan_step (steps : nat) (buffer : list jsstring) (i l : nat) :
  scan (Payload := Payload) (S steps) buffer i l
  = if (endAlphanumeric (nth (i - 1) buffer [])
        && beginnningAlphanumeric (nth i buffer []))
       && negb (5 <=? i - l)%nat
    then scan steps buffer (S i) l
    else let '(yielded, final) := scan steps buffer (S i) i in
         (Stream (join_slice buffer l i) :: yielded, final).
Proof. reflexivity. Qed.

(** The inner loop cuts the buffer, from the index it entered with, into
    slices of one to five fragments and a rest of one to five. *)
Lemma scan_groups (steps : nat) (buffer : list jsstring) :
  forall (i lastIndexEmitted : nat) (yielded : list Update) (final : nat),
    scan steps buffer i lastIndexEmitted = (yielded, final) ->
    (lastIndexEmitted < i)%nat -> (i - lastIndexEmitted <= 5)%nat ->
    (i + steps = List.length buffer)%nat ->
    exists slices : list (list jsstring),
      yielded = map (fun g => Stream (concat g)) slices
      /\ concat slices ++ skipn final buffer = skipn lastIndexEmitted buffer
      /\ Forall (fun g => (1 <= List.length g <= 5)%nat) slices
      /\ (1 <= List.length buffer - final <= 5)%nat.
Proof.
  induction steps as [|steps IH]; intros i l yielded final Hscan Hlt Hcap Hlen.
  - simpl in Hscan. injection Hscan as <- <-. exists []. repeat split; auto; lia.
  - rewrite scan_step in Hscan.
    destruct (andb _ _) eqn:Hc in Hscan.
    + apply andb_true_iff in Hc as [_ Hc].
      apply negb_true_iff, Nat.leb_gt in Hc.
      apply (IH (S i) l); auto; lia.
    + destruct (scan steps buffer (S i) i) as [y f] eqn:Hrest.
      injection Hscan as <- <-.
      destruct (IH (S i) i y f Hrest ltac:(lia) ltac:(lia) ltac:(lia))
        as (slices & Hy & Hcut & Hsizes & Hrem).
      exists (firstn (i - l) (skipn l buffer) :: slices).
      split; [|split; [|split]]; auto.
      * unfold join_slice. simpl. now rewrite Hy.
      * simpl. rewrite <- app_assoc, Hcut.
        rewrite <- (firstn_skipn (i - l) (skipn l buffer)) at 2.
        rewrite skipn_skipn. now replace (i - l + l)%nat with i by lia.
      * constructor; [|assumption].
        rewrite length_firstn, length_skipn. lia.
Qed.

Lemma expand_singletons (tokens : list jsstring) :
  expand (map (fun t => Group [t]) tokens) = map (@Stream Payload) tokens.
Proof. induction tokens as [|t tokens IH]; simpl; [reflexivity | now rewrite IH]. Qed.

Lemma render_singletons (tokens : list jsstring) :
  render (map (fun t => Group [t]) tokens) = map (@Stream Payload) tokens.
Proof.
  induction tokens as [|t tokens IH]; simpl; [reflexivity|].
  now rewrite app_nil_r, IH.
Qed.

Lemma expand_groups (slices : list (list jsstring)) :
  expand (map Group slices) = map (@Stream Payload) (concat slices).
Proof.
  induction slices as [|g slices IH]; simpl; [reflexivity|].
  now rewrite IH, map_app.
Qed.

Lemma render_groups (slices : list (list jsstring)) :
  render (map Group slices) = map (fun g => @Stream Payload (concat g)) slices.
Proof. unfold render. now rewrite map_map. Qed.

Lemma expand_app (a b : list Item) : expand (a ++ b) = expand a ++ expand b.
Proof. apply flat_map_app. Qed.

Lemma render_app (a b : list Item) : render (a ++ b) = render a ++ render b.
Proof. apply map_app. Qed.

Lemma coalesce_groups (upstream : list Update) :
  forall buffered : list jsstring,
    (List.length buffered <= 5)%nat ->
    exists items : list Item,
      expand items = map Stream buffered ++ upstream
      /\ render items = coalesce upstream buffered
      /\ Forall well_sized items.
Proof.
  induction upstream as [|[token|p] upstream IH]; intros buffered Hsize.
  - exists (map (fun t => Group [t]) buffered).
    rewrite expand_singletons, render_singletons, app_nil_r.
    repeat split. apply Forall_map, Forall_forall. intros t _. simpl. lia.
  - simpl coalesce.
    destruct (scan _ _ _ _) as [yielded final] eqn:Hscan.
    destruct (scan_groups _ _ _ _ _ _ Hscan ltac:(lia) ltac:(lia))
      as (slices & Hy & Hcut & Hsizes & Hrem).
    { rewrite length_app. simpl. lia. }
    destruct (IH (skipn final (buffered ++ [token])))
      as (items & Hexp & Hren & Hok).
    { rewrite length_skipn. lia. }
    exists (map Group slices ++ items). split; [|split].
    + rewrite expand_app, expand_groups, Hexp, app_assoc, <- map_app, Hcut.
      simpl. now rewrite map_app, <- app_assoc.
    + now rewrite render_app, render_groups, Hren, Hy.
    + apply Forall_app. split; [|assumption].
      apply Forall_map. exact Hsizes.
  - destruct (IH [] ltac:(simpl; lia)) as (items & Hexp & Hren & Hok).
    simpl in Hexp. destruct buffered as [|b buffered].
    + exists (Other p :: items).
      change (expand (Other p :: items)) with (NonStream p :: expand items).
      change (render (Other p :: items)) with (NonStream p :: render items).
      rewrite Hexp, Hren. repeat split. constructor; simpl; auto.
    + exists (Group (b :: buffered) :: Other p :: items).
      change (expand (Group (b :: buffered) :: Other p :: items))
        with (map Stream (b :: buffered) ++ NonStream p :: expand items).
      change (render (Group (b :: buffered) :: Other p :: items))
        with (Stream (concat (b :: buffered)) :: NonStream p :: render items).
      rewrite Hexp, Hren. repeat split.
      constructor; [simpl in *; lia|]. constructor; [exact I | assumption].
Qed.

(** X7: what the coalescer yields is its upstream cut into pieces: every
    other update stands alone and in its place, and every [Stream] token
    yielded is the join of one to five neighbouring fragments of the
    upstream, none left out and none used twice. *)
Theorem coalescer_groups_fragments (upstream : list Update) :
  exists items : list Item,
    expand items = upstream
    /\ render items = streamMessageUpdatesToFullWords upstream
    /\ Forall well_sized items.
Proof.
  destruct (coalesce_groups upstream [] ltac:(simpl; lia)) as (items & H).
  exists items. exact H.
Qed.

Lemma coalesce_unglued (upstream : list Update) :
  (unglued upstream -> coalesce upstream [] = upstream)
  /\ (forall t, unglued (Stream t :: upstream) ->
       coalesce upstream [t] = Stream t :: upstream).
Proof.
  induction upstream as [|[b|p] upstream [IH0 IH1]].
  - split; [reflexivity|]. intros t _. reflexivity.
  - split.
    + intros Hu. simpl. apply IH1. exact Hu.
    + intros t [Hpair Hu].
      change (coalesce (Stream b :: upstream) [t])
        with (let '(yielded, lastIndexEmitted) :=
                scan (Payload := Payload) 1 [t; b] 1 0 in
              yielded ++ coalesce upstream (skipn lastIndexEmitted [t; b])).
      cbn -[endAlphanumeric beginnningAlphanumeric coalesce].
      rewrite Hpair. cbn -[coalesce]. rewrite app_nil_r.
      now rewrite (IH1 b Hu).
  - split.
    + intros Hu. simpl. now rewrite (IH0 Hu).
    + intros t [_ Hu]. simpl. now rewrite app_nil_r, (IH0 Hu).
Qed.

(** X8: fragments that do not continue one another pass through as they
    are.  When no [Stream] fragment that ends in a word character is
    followed at once by one that begins with a word character, the
    coalescer yields its upstream unchanged. *)
Theorem unglued_fragments_pass_through (upstream : list Update) :
  unglued upstream ->
  streamMessageUpdatesToFullWords upstream = upstream.
Proof. apply coalesce_unglued. Qed.

End CoalescerCoverage.

(** Three words with their spaces, around another update. *)
Lemma unglued_fragments_pass_through_witness :
  let upstream : list (MessageUpdate nat) :=
    [Stream (js "one"); Stream (js " two"); NonStream 4%nat; Stream (js " three")] in
  Coalescer.streamMessageUpdatesToFullWords upstream = upstream.
Proof.
  intros upstream. apply unglued_fragments_pass_through.
  simpl. repeat split.
Defined.

(** * Further properties of the pacing scheduler *)

Section PacerCoverage.

Import Pacer Budget.
Context {Payload : Type}.
#[local] Abbreviation Update := (MessageUpdate Payload).
#[local] Abbreviation State := (@Pacer.State Payload).

Lemma keeps_place_fst (out matched : list (Payload * nat)) :
  Forall2 keeps_place out matched -> map fst out = map fst matched.
Proof.
  induction 1 as [|o m out matched [Hf _] _ IH]; simpl; [reflexivity|].
  now rewrite Hf, IH.
Qed.

Lemma invariant_non_stream input consumed matched waiting (st : State) :
  invariant input consumed matched waiting st ->
  non_stream (yielded st) ++ non_stream (pendingNonStreamUpdates st)
  = non_stream consumed.
Proof.
  intros Hinv.
  rewrite <- (offsets_from_fst consumed 0). fold (offsets consumed).
  rewrite (inv_offsets _ _ _ _ _ Hinv), map_app.
  rewrite <- (keeps_place_fst _ _ (inv_matched _ _ _ _ _ Hinv)).
  rewrite <- (inv_waiting_pending _ _ _ _ _ Hinv).
  unfold offsets. now rewrite offsets_from_fst.
Qed.

(** X9: the scheduler neither loses nor repeats an update that is not a
    [Stream]: at every moment those yielded, those pending and those not
    yet taken from the upstream are, in this order, those of the input. *)
Theorem non_stream_conserved (input : list Update) (schedule : list Event) :
  let st := run schedule (initial input) in
  non_stream (yielded st) ++ non_stream (pendingNonStreamUpdates st)
  ++ non_stream (upstream st)
  = non_stream input.
Proof.
  intros st.
  destruct (invariant_run input schedule) as (consumed & matched & waiting & Hinv).
  fold st in Hinv.
  replace (non_stream input) with (non_stream (consumed ++ upstream st))
    by (f_equal; symmetry; exact (inv_input _ _ _ _ _ Hinv)).
  now rewrite non_stream_app, <- (invariant_non_stream _ _ _ _ _ Hinv), <- app_assoc.
Qed.

(** X10: pending updates go first.  Whatever the budgets, the consumer
    yields the updates of the pending queue, in order and one for each
    resumption, before it takes a character off the queue. *)
Theorem pending_updates_yielded_first (budgets : list Z) :
  forall st : State,
    control st <> Returned ->
    List.length budgets = List.length (pendingNonStreamUpdates st) ->
    let st' := run (map Resume budgets) st in
    yielded st' = yielded st ++ pendingNonStreamUpdates st
    /\ pendingNonStreamUpdates st' = []
    /\ charQueue st' = charQueue st.
Proof.
  induction budgets as [|b budgets IH]; intros st Hc Hlen.
  - destruct (pendingNonStreamUpdates st) eqn:Hp; [|discriminate].
    simpl. rewrite Hp, app_nil_r. auto.
  - destruct (pendingNonStreamUpdates st) as [|u rest] eqn:Hp; [discriminate|].
    assert (Hres : resume b st
                   = {| upstream := upstream st; charQueue := charQueue st;
                        pendingNonStreamUpdates := rest;
                        iteratorDone := iteratorDone st; control := InnerYield;
                        yielded := yielded st ++ [u] |}).
    { unfold resume, body, loop_test. rewrite Hp. simpl.
      rewrite !orb_true_r. destruct (control st); congruence. }
    change (run (map Resume (b :: budgets)) st)
      with (run (map Resume budgets) (resume b st)).
    rewrite Hres. clear Hres.
    match goal with |- context [run _ ?s] => set (st1 := s) end.
    assert (Hc1 : control st1 <> Returned) by (subst st1; simpl; discriminate).
    assert (Hlen1 : List.length budgets = List.length (pendingNonStreamUpdates st1))
      by (subst st1; simpl in *; lia).
    destruct (IH st1 Hc1 Hlen1) as (Hy & Hpe & Hq).
    cbv zeta. rewrite Hy, Hpe, Hq. subst st1. simpl.
    rewrite <- app_assoc. auto.
Qed.

Lemma non_stream_no_text (l : list Update) :
  Forall (fun u => is_stream u = false) l -> stream_text l = [].
Proof.
  induction 1 as [|[token|p] l Hu _ IH]; simpl; [reflexivity | discriminate | exact IH].
Qed.

Lemma resume_within_budget input consumed matched waiting (st : State) b :
  invariant input consumed matched waiting st ->
  (List.length (stream_text (yielded (resume b st)))
   <= List.length (stream_text (yielded st)) + Z.to_nat b)%nat.
Proof.
  intros Hinv. pose proof (inv_pending _ _ _ _ _ Hinv) as Hp.
  unfold resume, body, frame.
  destruct (control st); [destruct (loop_test st)| |]; simpl; try lia;
    (destruct (pendingNonStreamUpdates st) as [|u rest];
     [destruct (charQueue st) as [|c q] eqn:Hq; simpl; try lia;
      destruct (0 <? b)%Z eqn:Hb; cbn [yielded]; try lia;
      rewrite stream_text_app, length_app; cbn [stream_text];
      rewrite app_nil_r, length_firstn; lia
     |inversion Hp; subst; cbn [yielded];
      rewrite stream_text_app, length_app;
      destruct u; [discriminate | simpl; lia]]).
Qed.

Lemma produce_yields_nothing (st : State) : yielded (produce st) = yielded st.
Proof. unfold produce. now destruct (upstream st) as [|[token|p] rest]. Qed.

(** X11: the scheduler never runs ahead of its budget: the text it has
    yielded is no longer than the sum of the positive budgets of the frames
    so far. *)
Theorem paced_within_budget (input : list Update) (schedule : list Event) :
  (List.length (stream_text (smoothAsyncIterator input schedule))
   <= granted schedule)%nat.
Proof.
  unfold smoothAsyncIterator, run.
  assert (H : forall (st : State) consumed matched waiting,
             invariant input consumed matched waiting st ->
             (List.length (stream_text (yielded (fold_left step schedule st)))
              <= List.length (stream_text (yielded st)) + granted schedule)%nat).
  { induction schedule as [|e schedule IH]; intros st consumed matched waiting Hinv;
      [simpl; lia|].
    destruct e as [|b]; cbn [fold_left step granted].
    - destruct (invariant_produce _ _ _ _ _ Hinv) as (c' & w' & Hinv').
      specialize (IH _ _ _ _ Hinv'). rewrite produce_yields_nothing in IH. exact IH.
    - destruct (invariant_resume _ _ _ _ _ b Hinv) as (m' & w' & Hinv').
      specialize (IH _ _ _ _ Hinv').
      pose proof (resume_within_budget _ _ _ _ _ b Hinv). lia. }
  apply (H _ _ _ _ (invariant_initial input)).
Qed.

(** X12: the pipeline [fetchMessageUpdates] builds when smooth updates are
    on, the scheduler over the coalescer.  When the consumer loop is left,
    what has been yielded spells the text of the decoded updates and holds
    their other updates, in order. *)
Theorem smooth_pipeline_keeps_content (decoded : list Update) (schedule : list Event) :
  control (run schedule (initial (Coalescer.streamMessageUpdatesToFullWords decoded)))
  = Returned ->
  let output :=
    smoothAsyncIterator (Coalescer.streamMessageUpdatesToFullWords decoded) schedule in
  stream_text output = stream_text decoded
  /\ non_stream output = non_stream decoded.
Proof.
  intros Hret output. subst output. unfold smoothAsyncIterator.
  set (coalesced := Coalescer.streamMessageUpdatesToFullWords decoded) in *.
  destruct (invariant_run coalesced schedule) as (consumed & matched & waiting & Hinv).
  destruct (inv_returned _ _ _ _ _ Hinv Hret) as (Hd & Hq & Hp).
  pose proof (inv_done _ _ _ _ _ Hinv Hd) as Hup.
  pose proof (inv_input _ _ _ _ _ Hinv) as Hin. rewrite Hup, app_nil_r in Hin.
  pose proof (inv_text _ _ _ _ _ Hinv) as Ht. rewrite Hq, app_nil_r in Ht.
  pose proof (invariant_non_stream _ _ _ _ _ Hinv) as Hn.
  rewrite Hp in Hn. simpl in Hn. rewrite app_nil_r in Hn.
  rewrite Ht, Hn, <- Hin. subst coalesced.
  unfold Coalescer.streamMessageUpdatesToFullWords.
  now rewrite coalesce_text, coalesce_non_stream.
Qed.

End PacerCoverage.

(** Two updates pending behind three queued characters. *)
Lemma pending_updates_yielded_first_witness :
  let st : @Pacer.State nat :=
    {| Pacer.upstream := []; Pacer.charQueue := js "abc";
       Pacer.pendingNonStreamUpdates := [NonStream 1%nat; NonStream 2%nat];
       Pacer.iteratorDone := true; Pacer.control := Pacer.AtLoopTest;
       Pacer.yielded := [Stream (js "x")] |} in
  let st' := Pacer.run (map Pacer.Resume [5%Z; 0%Z]) st in
  Pacer.yielded st' = [Stream (js "x")] ++ [NonStream 1%nat; NonStream 2%nat]
  /\ Pacer.pendingNonStreamUpdates st' = []
  /\ Pacer.charQueue st' = js "abc".
Proof.
  intros st.
  apply (pending_updates_yielded_first [5%Z; 0%Z] st); [discriminate | reflexivity].
Defined.

(** The fragments of the coalescer's example, a tool update and a last
    fragment, paced to the end. *)
Lemma smooth_pipeline_keeps_content_witness :
  let decoded : list (MessageUpdate nat) :=
    [Stream (js "what"); Stream (js " don"); Stream (js "'t"); NonStream 3%nat;
     Stream (js "!")] in
  let schedule :=
    [Pacer.Resume 0; Pacer.Produce; Pacer.Produce; Pacer.Produce; Pacer.Produce;
     Pacer.Produce; Pacer.Resume 3; Pacer.Resume 20; Pacer.Resume 1] in
  let output :=
    Pacer.smoothAsyncIterator
      (Coalescer.streamMessageUpdatesToFullWords decoded) schedule in
  stream_text output = stream_text decoded
  /\ non_stream output = non_stream decoded.
Proof.
  intros decoded schedule.
  apply (smooth_pipeline_keeps_content decoded schedule). reflexivity.
Defined.

(** * Properties of the tool updates *)

Section ToolUpdateProperties.

Import ToolUpdates.
Variables Tool Call Result Error Progress : jsstring.

#[local] Abbreviation isProgress := (isMessageToolProgressUpdate Tool Progress).

Lemma toolProgress_from_prefix (tool : list Update) (x : Update) (count : nat) :
  (count <= List.length tool)%nat ->
  toolProgress_from Tool Progress count (tool ++ [x])
  = toolProgress_from Tool Progress count tool.
Proof.
  induction count as [|i IH]; intros Hle; [reflexivity|]. simpl.
  rewrite nth_error_app1 by lia.
  destruct (nth_error tool i) as [u|]; [destruct (isProgress u)|]; auto; apply IH; lia.
Qed.

Lemma toolProgress_snoc (tool : list Update) (x : Update) :
  toolProgress Tool Progress (tool ++ [x])
  = if isProgress x then Some x else toolProgress Tool Progress tool.
Proof.
  unfold toolProgress. rewrite length_app. simpl.
  replace (List.length tool + 1)%nat with (S (List.length tool)) by lia. simpl.
  rewrite nth_error_app2, Nat.sub_diag by lia. simpl.
  destruct (isProgress x); [reflexivity|].
  apply toolProgress_from_prefix. lia.
Qed.

(** X13: the progress shown is the last one.  The update the loop returns
    is a progress update of the list with no progress update after it, and
    the loop returns none only when the list holds none. *)
Theorem toolProgress_is_last (tool : list Update) :
  match toolProgress Tool Progress tool with
  | Some update =>
      exists before after,
        tool = before ++ update :: after
        /\ isProgress update = true
        /\ forallb (fun u => negb (isProgress u)) after = true
  | None => forallb (fun u => negb (isProgress u)) tool = true
  end.
Proof.
  induction tool as [|x tool IH] using rev_ind; [reflexivity|].
  rewrite toolProgress_snoc. destruct (isProgress x) eqn:Hx.
  - exists tool, []. auto.
  - destruct (toolProgress Tool Progress tool) as [u|].
    + destruct IH as (before & after & -> & Hu & Hafter).
      exists before, (after ++ [x]). rewrite <- app_assoc. repeat split; auto.
      rewrite forallb_app, Hafter. simpl. now rewrite Hx.
    + rewrite forallb_app, IH. simpl. now rewrite Hx.
Qed.

Lemma shown_app (tool more : list Update) :
  shown Tool Call tool = true -> shown Tool Call (tool ++ more) = true.
Proof.
  unfold shown, toolFnName. induction tool as [|u tool IH]; [discriminate|].
  simpl. destruct (isMessageToolCallUpdate Tool Call u); auto.
Qed.

(** X14: an error is final.  Once the list holds an error update, whatever
    updates follow and whether or not the message is loading, the tool is
    shown neither as executing nor as successful, and the header, where the
    block is rendered, reads [Error calling]; the block once rendered stays
    rendered, so that a header that was there then reads so. *)
Theorem error_is_final (tool more : list Update) (loading : bool) :
  toolError Tool Error tool = true ->
  toolError Tool Error (tool ++ more) = true
  /\ isExecuting Tool Result Error (tool ++ more) loading = false
  /\ toolSuccess Tool Result Error (tool ++ more) = false
  /\ header Tool Call Result Error (tool ++ more)
     = (if shown Tool Call (tool ++ more) then Some (js "Error calling") else None)
  /\ (shown Tool Call tool = true ->
      header Tool Call Result Error (tool ++ more) = Some (js "Error calling")).
Proof.
  intros He.
  assert (He' : toolError Tool Error (tool ++ more) = true)
    by (unfold toolError in *; now rewrite existsb_app, He).
  unfold isExecuting, toolSuccess, header. rewrite He'.
  destruct (toolDone Tool Result (tool ++ more)); repeat split;
    intros Hs; now rewrite (shown_app tool more Hs).
Qed.

(** X15: a result ends the execution.  Once the list holds a result update
    the tool is never shown as executing again, and without an error update
    it is shown as successful and the header, where the block is rendered,
    reads [Called]; it is rendered where it was before the updates that
    follow. *)
Theorem result_ends_execution (tool more : list Update) (loading : bool) :
  toolDone Tool Result tool = true ->
  isExecuting Tool Result Error (tool ++ more) loading = false
  /\ (toolError Tool Error (tool ++ more) = false ->
      toolSuccess Tool Result Error (tool ++ more) = true
      /\ header Tool Call Result Error (tool ++ more)
         = (if shown Tool Call (tool ++ more) then Some (js "Called") else None)
      /\ (shown Tool Call tool = true ->
          header Tool Call Result Error (tool ++ more) = Some (js "Called"))).
Proof.
  intros Hd.
  assert (Hd' : toolDone Tool Result (tool ++ more) = true)
    by (unfold toolDone in *; now rewrite existsb_app, Hd).
  unfold isExecuting, toolSuccess, header. rewrite Hd'. simpl.
  split; [reflexivity|]. intros ->. repeat split.
  intros Hs. now rewrite (shown_app tool more Hs).
Qed.

(** X16: the guards of the four subtypes exclude one another.  When the
    four members of the enumeration differ, an update passes one of the
    guards at most, and an update that passes one is a tool update. *)
Theorem subtype_guards_exclusive (update : Update) :
  NoDup [Call; Result; Error; Progress] ->
  let call := isMessageToolCallUpdate Tool Call update in
  let result := isMessageToolResultUpdate Tool Result update in
  let error := isMessageToolErrorUpdate Tool Error update in
  let progress := isMessageToolProgressUpdate Tool Progress update in
  (Nat.b2n call + Nat.b2n result + Nat.b2n error + Nat.b2n progress <= 1)%nat
  /\ (call || result || error || progress = true ->
      isMessageToolUpdate Tool update = true).
Proof.
  intros Hnd call result error progress. subst call result error progress.
  unfold isMessageToolCallUpdate, isMessageToolResultUpdate,
    isMessageToolErrorUpdate, isMessageToolProgressUpdate, subtype_is.
  destruct (isMessageToolUpdate Tool update); cbn [andb];
    [|split; [simpl; lia | discriminate]].
  split; [|reflexivity].
  destruct (subtype update) as [s|]; [|simpl; lia].
  destruct (jsstring_eqb s Call) eqn:E1; destruct (jsstring_eqb s Result) eqn:E2;
    destruct (jsstring_eqb s Error) eqn:E3; destruct (jsstring_eqb s Progress) eqn:E4;
    simpl; try lia; exfalso;
    repeat match goal with
           | H : jsstring_eqb _ _ = true |- _ => apply jsstring_eqb_eq in H; subst
           end;
    repeat match goal with
           | H : NoDup (_ :: _) |- _ => inversion H; clear H; subst
           end;
    simpl in *; tauto.
Qed.

End ToolUpdateProperties.

(** A call, an error and a late result; and the same updates without the
    call, for which nothing is rendered. *)
Lemma error_is_final_witness :
  let tool_update (s : jsstring) :=
    {| ToolUpdates.type := js "tool"; ToolUpdates.subtype := Some s;
       ToolUpdates.call_name := js "search" |} in
  let tool := [tool_update (js "call"); tool_update (js "error")] in
  let more := [tool_update (js "result")] in
  (ToolUpdates.toolError (js "tool") (js "error") (tool ++ more) = true
   /\ ToolUpdates.isExecuting (js "tool") (js "result") (js "error") (tool ++ more) true
      = false
   /\ ToolUpdates.toolSuccess (js "tool") (js "result") (js "error") (tool ++ more)
      = false
   /\ ToolUpdates.header (js "tool") (js "call") (js "result") (js "error") (tool ++ more)
      = Some (js "Error calling"))
  /\ ToolUpdates.header (js "tool") (js "call") (js "result") (js "error")
       (tl tool ++ more)
     = None.
Proof.
  intros tool_update tool more. split.
  - destruct (error_is_final (js "tool") (js "call") (js "result") (js "error")
                tool more true eq_refl) as (He & Hexec & Hs & _ & Hh).
    exact (conj He (conj Hexec (conj Hs (Hh eq_refl)))).
  - destruct (error_is_final (js "tool") (js "call") (js "result") (js "error")
                (tl tool) more true eq_refl) as (_ & _ & _ & Hh & _).
    exact Hh.
Defined.

(** A call, its result and a progress update that comes late. *)
Lemma result_ends_execution_witness :
  let tool_update (s : jsstring) :=
    {| ToolUpdates.type := js "tool"; ToolUpdates.subtype := Some s;
       ToolUpdates.call_name := js "search" |} in
  let tool := [tool_update (js "call"); tool_update (js "result")] in
  let more := [tool_update (js "progress")] in
  ToolUpdates.isExecuting (js "tool") (js "result") (js "error") (tool ++ more) true
  = false
  /\ ToolUpdates.toolSuccess (js "tool") (js "result") (js "error") (tool ++ more)
     = true
  /\ ToolUpdates.header (js "tool") (js "call") (js "result") (js "error") (tool ++ more)
     = Some (js "Called").
Proof.
  intros tool_update tool more.
  destruct (result_ends_execution (js "tool") (js "call") (js "result") (js "error")
              tool more true eq_refl) as [Hexec Hdone].
  split; [exact Hexec|].
  destruct (Hdone eq_refl) as (Hs & _ & Hh).
  exact (conj Hs (Hh eq_refl)).
Defined.

(** The members as the strings of the wire format, on a result update. *)
Lemma subtype_guards_exclusive_witness :
  let update :=
    {| ToolUpdates.type := js "tool"; ToolUpdates.subtype := Some (js "result");
       ToolUpdates.call_name := [] |} in
  let call := ToolUpdates.isMessageToolCallUpdate (js "tool") (js "call") update in
  let result := ToolUpdates.isMessageToolResultUpdate (js "tool") (js "result") update in
  let error := ToolUpdates.isMessageToolErrorUpdate (js "tool") (js "error") update in
  let progress :=
    ToolUpdates.isMessageToolProgressUpdate (js "tool") (js "progress") update in
  (Nat.b2n call + Nat.b2n result + Nat.b2n error + Nat.b2n progress <= 1)%nat
  /\ (call || result || error || progress = true ->
      ToolUpdates.isMessageToolUpdate (js "tool") update = true).
Proof.
  intros update.
  apply (subtype_guards_exclusive (js "tool") (js "call") (js "result") (js "error")
           (js "progress") update).
  repeat constructor; simpl; intuition discriminate.
Defined.

(** * Properties of the reasoning panel *)

Section ReasoningProperties.

Import Reasoning.

(** X17: running the effect again changes nothing.  The effect writes
    state it also reads, so it runs again after itself; the second run
    leaves the panel as the first one made it. *)
Theorem effect_settles (loading : bool) (p : Panel) :
  effect loading (effect loading p) = effect loading p.
Proof.
  destruct p as [[] [] []], loading; reflexivity.
Qed.

Lemma effect_initialized (loading : bool) (p : Panel) :
  initialized p = true ->
  effect loading p = track loading p.
Proof. unfold effect. now intros ->. Qed.

Lemma follow_invariant (actions : list Action) :
  forall (p : Panel) (odd : bool),
    initialized p = true ->
    isOpen p = xorb (wasLoading p) odd ->
    let '(loading, odd') := follow (wasLoading p) odd actions in
    let q := fold_left act actions p in
    initialized q = true /\ wasLoading q = loading
    /\ isOpen q = xorb loading odd'.
Proof.
  induction actions as [|a actions IH]; intros p odd Hi Ho; simpl.
  - auto.
  - destruct a as [l|]; simpl.
    + rewrite (effect_initialized l p Hi).
      destruct (Bool.eqb l (wasLoading p)) eqn:E.
      * apply Bool.eqb_prop in E. subst l.
        specialize (IH (track (wasLoading p) p) odd). simpl in IH.
        apply IH; [exact Hi|].
        rewrite Ho. destruct (wasLoading p), odd; reflexivity.
      * specialize (IH (track l p) false). simpl in IH.
        apply IH; [exact Hi|].
        destruct l, (wasLoading p); simpl in *; try discriminate; reflexivity.
    + specialize (IH (click p) (negb odd)). simpl in IH.
      apply IH; [exact Hi|].
      rewrite Ho. destruct (wasLoading p), odd; reflexivity.
Qed.

(** X18: the panel follows [loading].  After the component is mounted and
    whatever is done to it, the panel is open exactly when [loading] holds
    and the clicks since [loading] last changed are even in number, or
    [loading] does not hold and they are odd: a change of [loading] opens or
    closes the panel, and nothing but a click does in between. *)
Theorem panel_follows_loading (mounted : bool) (actions : list Action) :
  let '(loading, odd) := follow mounted false actions in
  let p := after mounted actions in
  initialized p = true /\ wasLoading p = loading /\ isOpen p = xorb loading odd.
Proof.
  unfold after.
  assert (Hw : wasLoading (effect mounted created) = mounted)
    by (destruct mounted; reflexivity).
  pose proof (follow_invariant actions (effect mounted created) false) as H.
  rewrite Hw in H. apply H; destruct mounted; reflexivity.
Qed.

Lemma trimStart_sound (s : jsstring) :
  match trimStart s with
  | c :: _ => is_space c = false
  | [] => True
  end.
Proof.
  induction s as [|c s IH]; simpl; [exact I|].
  destruct (is_space c) eqn:E; [exact IH | exact E].
Qed.

Lemma trimStart_suffix (s : jsstring) : exists spaces, s = spaces ++ trimStart s.
Proof.
  induction s as [|c s [spaces IH]]; simpl; [now exists []|].
  destruct (is_space c); [|now exists []].
  exists (c :: spaces). simpl. now rewrite <- IH.
Qed.

Lemma trimStart_In (s : jsstring) (c : code_unit) : In c (trimStart s) -> In c s.
Proof.
  destruct (trimStart_suffix s) as [spaces H]. intros Hin.
  rewrite H. apply in_or_app. now right.
Qed.

Lemma trim_In (s : jsstring) (c : code_unit) : In c (trim s) -> In c s.
Proof.
  unfold trim, trimEnd. intros Hin.
  apply in_rev in Hin. apply trimStart_In in Hin. apply in_rev in Hin.
  now apply trimStart_In.
Qed.

Lemma collapse_newlines_In (s : jsstring) (c : code_unit) :
  In c (collapse_newlines s) -> c = 32 \/ (In c s /\ c <> NEWLINE).
Proof.
  induction s as [|d s IH]; simpl; [intros []|].
  destruct (d =? NEWLINE) eqn:E.
  - destruct s as [|next s'].
    + intros [<- | []]. now left.
    + destruct (next =? NEWLINE).
      * intros Hin. destruct (IH Hin) as [-> | [H1 H2]]; auto.
      * intros [<- | Hin]; [now left|].
        destruct (IH Hin) as [-> | [H1 H2]]; auto.
  - apply N.eqb_neq in E.
    intros [<- | Hin]; [right; split; auto|].
    destruct (IH Hin) as [-> | [H1 H2]]; auto.
Qed.

(** X19: the preview holds no markup and no line break: none of the
    characters # * _ ` ~ and the square brackets, and no newline. *)
Theorem preview_is_plain (content : jsstring) :
  Forall (fun c => is_mark c = false /\ c <> NEWLINE) (preview content).
Proof.
  apply Forall_forall. intros c.
  unfold preview. intros Hin. apply trim_In in Hin.
  apply collapse_newlines_In in Hin as [-> | [Hin Hn]].
  - split; [reflexivity | discriminate].
  - split; [|exact Hn].
    unfold strip_marks in Hin. apply filter_In in Hin as [_ Hm].
    now apply negb_true_iff in Hm.
Qed.

Lemma trimStart_keeps_end (s : jsstring) :
  match rev s with
  | c :: _ => is_space c = false
  | [] => True
  end ->
  match rev (trimStart s) with
  | c :: _ => is_space c = false
  | [] => True
  end.
Proof.
  destruct (trimStart_suffix s) as [spaces H]. intros Hend.
  destruct (trimStart s) as [|x t] eqn:E; [exact I|].
  rewrite H, rev_app_distr in Hend.
  destruct (rev (x :: t)) as [|y r] eqn:Er.
  - apply (f_equal (@List.length _)) in Er. rewrite length_rev in Er. discriminate.
  - exact Hend.
Qed.

(** X20: the preview is trimmed: it neither begins nor ends with a white
    space character. *)
Theorem preview_is_trimmed (content : jsstring) :
  match preview content with
  | c :: _ => is_space c = false
  | [] => True
  end
  /\ match rev (preview content) with
     | c :: _ => is_space c = false
     | [] => True
     end.
Proof.
  unfold preview, trim, trimEnd.
  set (s := trimStart (collapse_newlines (strip_marks content))).
  split.
  - pose proof (trimStart_sound (rev s)) as Hend.
    pose proof (trimStart_sound (collapse_newlines (strip_marks content))) as Hstart.
    fold s in Hstart.
    apply (trimStart_keeps_end (rev s)). now rewrite rev_involutive.
  - rewrite rev_involutive. apply trimStart_sound.
Qed.

End ReasoningProperties.

(** * Properties of the pacing scheduler with its frame arithmetic *)

Section FloatProperties.

(** A sum, a product and a quotient whose first operand is not a number
    are not numbers. *)
Lemma nan_add (y : PrimFloat.float) : PrimFloat.add PrimFloat.nan y = PrimFloat.nan.
Proof. apply FloatAxioms.Prim2SF_inj. rewrite FloatAxioms.add_spec. reflexivity. Qed.

Lemma nan_mul (y : PrimFloat.float) : PrimFloat.mul PrimFloat.nan y = PrimFloat.nan.
Proof. apply FloatAxioms.Prim2SF_inj. rewrite FloatAxioms.mul_spec. reflexivity. Qed.

Lemma nan_div (y : PrimFloat.float) : PrimFloat.div PrimFloat.nan y = PrimFloat.nan.
Proof. apply FloatAxioms.Prim2SF_inj. rewrite FloatAxioms.div_spec. reflexivity. Qed.

End FloatProperties.

Section TimedProperties.

Context {Payload : Type}.
#[local] Abbreviation TimedState := (@Timed.State Payload).

(** Every step of the timed scheduler is the step of [Pacer] for the event
    it comes to, and so is every run. *)
Lemma timed_step_paced (st : TimedState) (e : Timed.Event) :
  Timed.pacer (Timed.step st e)
  = Pacer.step (Timed.pacer st) (Timed.abstract_event st e).
Proof.
  destruct e as [|now]; [reflexivity|].
  unfold Timed.step, Timed.resume, Timed.abstract_event, Pacer.step.
  destruct (Timed.branch (Timed.pacer st)); reflexivity.
Qed.

Lemma timed_run_paced (schedule : list Timed.Event) (st : TimedState) :
  Timed.pacer (Timed.run schedule st)
  = Pacer.run (Timed.abstract schedule st) (Timed.pacer st).
Proof.
  revert st. induction schedule as [|e rest IH]; intros st; [reflexivity|].
  unfold Timed.run, Pacer.run in *. cbn [fold_left Timed.abstract].
  now rewrite IH, timed_step_paced.
Qed.

(** With an [accumulatedTime] that is not a number, [charsToProcess] is
    not a number either, whatever the clock reads and the speed is. *)
Lemma charsToProcess_nan (now : PrimFloat.float) (st : TimedState) :
  Timed.accumulatedTime st = PrimFloat.nan ->
  Timed.charsToProcess now st = PrimFloat.nan.
Proof.
  intros Hacc. unfold Timed.charsToProcess, Timed.accumulated.
  now rewrite Hacc, nan_add, nan_mul, nan_div.
Qed.

(** A stalled consumer stays as it is at every step. *)
Lemma stalled_step (st : TimedState) (e : Timed.Event) :
  Timed.stalled st ->
  Timed.stalled (Timed.step st e)
  /\ Timed.pacer (Timed.step st e) = Timed.pacer st.
Proof.
  intros (Hacc & Hup & Hdone & Hpending & Hqueue & Hcontrol).
  destruct st as [p cs lq acc lf w]. cbn [Timed.accumulatedTime Timed.pacer] in *.
  destruct p as [up queue pending done control yielded].
  cbn [Pacer.upstream Pacer.iteratorDone Pacer.pendingNonStreamUpdates
       Pacer.charQueue Pacer.control] in *.
  subst. destruct queue as [|c queue]; [congruence|].
  destruct e as [|now].
  - split; [|reflexivity]. repeat split; auto.
  - assert (Hchars := charsToProcess_nan now
      {| Timed.pacer :=
           {| Pacer.upstream := []; Pacer.charQueue := c :: queue;
              Pacer.pendingNonStreamUpdates := []; Pacer.iteratorDone := true;
              Pacer.control := Pacer.AtLoopTest; Pacer.yielded := yielded |};
         Timed.currentSpeed := cs; Timed.lastQueueLength := lq;
         Timed.accumulatedTime := PrimFloat.nan; Timed.lastFrameTime := lf;
         Timed.waited := w |} eq_refl).
    unfold Timed.step, Timed.resume.
    change (Timed.branch _) with (@Timed.Animates).
    cbv beta iota. rewrite Hchars.
    change (Timed.budget PrimFloat.nan _) with 0%Z.
    change (PrimFloat.ltb PrimFloat.zero PrimFloat.nan) with false.
    cbv beta iota.
    change (Pacer.resume 0 _) with
      {| Pacer.upstream := @nil (MessageUpdate Payload); Pacer.charQueue := c :: queue;
         Pacer.pendingNonStreamUpdates := []; Pacer.iteratorDone := true;
         Pacer.control := Pacer.AtLoopTest; Pacer.yielded := yielded |}.
    cbn [Timed.pacer]. split; [|reflexivity].
    unfold Timed.stalled, Timed.accumulated.
    cbn [Timed.accumulatedTime Timed.pacer Pacer.upstream Pacer.iteratorDone
         Pacer.pendingNonStreamUpdates Pacer.charQueue Pacer.control].
    rewrite nan_add. repeat split; auto.
Qed.

Lemma stalled_run (schedule : list Timed.Event) (st : TimedState) :
  Timed.stalled st ->
  Timed.stalled (Timed.run schedule st)
  /\ Timed.pacer (Timed.run schedule st) = Timed.pacer st.
Proof.
  revert st. induction schedule as [|e rest IH]; intros st Hst; [now split|].
  destruct (stalled_step st e Hst) as [Hnext Hsame].
  destruct (IH _ Hnext) as [Hend Hp].
  unfold Timed.run in *. cbn [fold_left]. split; [exact Hend|]. now rewrite Hp.
Qed.

End TimedProperties.

(** C4: sustained bursts stop the pacer for good.  The upstream yields 639
    tokens of 5000 code units, one before every frame, the frames 16 ms
    apart.  A queue that grows by more than 2500 code units between two
    frames makes [speedChangeRate] exceed 2, so [currentSpeed] overshoots
    its target further at every frame, in turn above and below zero, until
    it overflows; [accumulatedTime] and [currentSpeed] then are not numbers.
    At that point the producer is done, 3180000 of the 3195000 code units
    taken have been yielded and 15000 are queued; whatever the later turns
    and clock readings, [charsToProcess] is not a number, nothing more is
    yielded and the loop is not left. *)
Theorem sustained_bursts_stall_pacing :
  let input := Timed.burst_input (Payload := unit) 5000 639 in
  let st := Timed.run (Timed.burst_schedule 639) (Timed.initial input PrimFloat.zero) in
  Z.of_nat (List.length (stream_text input)) = 3195000%Z
  /\ Pacer.upstream (Timed.pacer st) = []
  /\ Pacer.iteratorDone (Timed.pacer st) = true
  /\ Z.of_nat (List.length (stream_text (Pacer.yielded (Timed.pacer st)))) = 3180000%Z
  /\ Z.of_nat (List.length (Pacer.charQueue (Timed.pacer st))) = 15000%Z
  /\ Pacer.control (Timed.pacer st) = Pacer.AtLoopTest
  /\ Timed.currentSpeed st = PrimFloat.nan
  /\ Timed.accumulatedTime st = PrimFloat.nan
  /\ forall later : list Timed.Event,
       Timed.pacer (Timed.run later st) = Timed.pacer st
       /\ Timed.charsToProcess PrimFloat.zero (Timed.run later st) = PrimFloat.nan.
Proof.
  intros input st.
  assert (Hfacts :
    (Z.of_nat (List.length (stream_text input)),
     Pacer.upstream (Timed.pacer st), Pacer.iteratorDone (Timed.pacer st),
     Z.of_nat (List.length (stream_text (Pacer.yielded (Timed.pacer st)))),
     Z.of_nat (List.length (Pacer.charQueue (Timed.pacer st))),
     Pacer.control (Timed.pacer st), Timed.currentSpeed st,
     Timed.accumulatedTime st, Pacer.pendingNonStreamUpdates (Timed.pacer st))
    = (3195000%Z, [], true, 3180000%Z, 15000%Z, Pacer.AtLoopTest,
       PrimFloat.nan, PrimFloat.nan, []))
    by (vm_compute; reflexivity).
  clearbody st input.
  injection Hfacts as Hinput Hup Hdone Hyielded Hqueue Hcontrol Hspeed Hacc Hpending.
  repeat (split; [assumption|]).
  assert (Hst : Timed.stalled st).
  { repeat (split; [assumption|]). split; [|assumption].
    intros Hnil. rewrite Hnil in Hqueue. discriminate. }
  intros later. destruct (stalled_run later st Hst) as [Hlater Hsame].
  split; [exact Hsame|]. apply charsToProcess_nan, Hlater.
Qed.
